(** * qutip.solver.stochastic: measurement configuration, trajectory
      recording and ensemble reduction

    A shallow embedding of [qutip/solver/stochastic.py].  Python floats are
    idealised as real numbers ([R]); exceptions are an explicit result type;
    objects mutated in place become records threaded through the calls. *)

From Stdlib Require Import String.
From Stdlib Require Import List Bool Arith Lia Reals Lra.
From Stdlib Require Floats.PrimFloat.
Import ListNotations.

Set Implicit Arguments.

(** ** Python exceptions as results *)

Inductive exn : Type :=
| TypeError
| ValueError
| IndexError
| AttributeError.

Inductive res (A : Type) : Type :=
| Ok (a : A)
| Raise (e : exn).

Arguments Ok {A} a.
Arguments Raise {A} e.

Definition bind {A B : Type} (c : res A) (k : A -> res B) : res B :=
  match c with
  | Ok a => k a
  | Raise e => Raise e
  end.

Notation "'let*' x ':=' c 'in' k" := (bind c (fun x => k))
  (at level 10, x pattern, c at level 100, k at level 200).

(** [xs[-i]] for [i >= 1]: the i-th element from the end. *)
Definition index_neg {A : Type} (xs : list A) (i : nat) : res A :=
  match nth_error (rev xs) (i - 1) with
  | Some x => Ok x
  | None => Raise IndexError
  end.

(** ** The slice of numpy the module uses *)

Module Numpy.

(** A two-dimensional array of shape [(len rows, ncols)]: one row per
    integrator sub-step, one column per noise channel. *)
Record array2 : Type := mkArray2 {
  ncols : nat;
  rows : list (list R)
}.

Definition wf (a : array2) : bool :=
  forallb (fun r => Nat.eqb (length r) (ncols a)) (rows a).

(** [a / d], element by element. *)
Definition div (a : array2) (d : R) : array2 :=
  mkArray2 (ncols a) (map (map (fun x => (x / d)%R)) (rows a)).

Fixpoint vadd (u v : list R) : list R :=
  match u, v with
  | x :: u', y :: v' => (x + y)%R :: vadd u' v'
  | _, _ => []
  end.

(** [np.sum(a, axis=0)]: the column sums, a vector of length [ncols a]. *)
Definition sum_axis0 (a : array2) : list R :=
  fold_left vadd (rows a) (repeat 0%R (ncols a)).

(** An n-dimensional array: its shape and its elements in row-major
    order. *)
Record ndarray : Type := mkNd {
  shape : list nat;
  data : list R
}.

Definition size_of (sh : list nat) : nat := fold_right Nat.mul 1 sh.

(** [np.array(nested)] for a list of lists of numbers.  The empty list
    gives shape [(0,)]; rows of unequal length are refused. *)
Definition array (nested : list (list R)) : res ndarray :=
  match nested with
  | [] => Ok (mkNd [0] [])
  | r :: _ =>
      if forallb (fun r' => Nat.eqb (length r') (length r)) nested
      then Ok (mkNd [length nested; length r] (concat nested))
      else Raise ValueError
  end.

(** [a.reshape(-1, d1, d2)]: a NEW array over the same elements; [a]
    itself keeps its shape.  The free dimension is inferred, which fails
    when [d1 * d2] is zero or does not divide the size. *)
Definition reshape_infer (a : ndarray) (d1 d2 : nat) : res ndarray :=
  let n := size_of (shape a) in
  if Nat.eqb (d1 * d2) 0 then Raise ValueError
  else if Nat.eqb (n mod (d1 * d2)) 0
       then Ok (mkNd [n / (d1 * d2); d1; d2] (data a))
       else Raise ValueError.

(** [shape[-1]] of an array with at least one dimension. *)
Definition last_dim (a : ndarray) : nat := last (shape a) 0.

End Numpy.

(** ** Operators (external collaborator) *)

Module Qobj.

(** The [type] attribute of a [Qobj] / [QobjEvo]. *)
Inductive qobj_type : Type :=
| oper
| super
| ket
| bra
| operator_ket
| operator_bra.

Definition qobj_type_eqb (a b : qobj_type) : bool :=
  match a, b with
  | oper, oper | super, super | ket, ket | bra, bra
  | operator_ket, operator_ket | operator_bra, operator_bra => true
  | _, _ => false
  end.

(** Modelled from the spec: the operator algebra the module consumes
    (adjoint, sum, difference, product with [-1j], construction of a
    Liouvillian, and the [isoper] / [issuper] type predicates, which read the
    operator's [type]).  [Qobj] and [QobjEvo] are one type here, so
    [QobjEvo(op)] is [op]. *)
Class Operators (Op : Type) : Type := {
  op_add : Op -> Op -> Op;
  op_sub : Op -> Op -> Op;
  dag : Op -> Op;
  mul_neg_1j : Op -> Op;
  liouvillian : Op -> Op;
  qtype : Op -> qobj_type
}.

Definition isoper {Op : Type} `{Operators Op} (o : Op) : bool :=
  qobj_type_eqb (qtype o) oper.

Definition issuper {Op : Type} `{Operators Op} (o : Op) : bool :=
  qobj_type_eqb (qtype o) super.

(** Modelled from the spec: [op.expect(t, state)], assumed primitive. *)
Class Expectation (Op State : Type) : Type := {
  expect : Op -> R -> State -> R
}.

End Qobj.

(** ** Options *)

Module Options.

(** The value of the [dW_factor] option: absent ([None]), a number, or a
    sequence of numbers. *)
Inductive dW_value : Type :=
| dW_None
| dW_Scalar (w : R)
| dW_Seq (l : list R).

(** Modelled from the spec: the options surface read by this module
    ([heterodyne], [store_measurement], [dW_factor]).  The class-level table
    [solver_options] spells the last key [dw_factor], the constructor reads
    [dW_factor]; the lookup itself lives outside this file. *)
Record SolverOptions : Type := mkOptions {
  heterodyne : bool;
  store_measurement : bool;
  dW_factor : dW_value
}.

(** Python truth value of a [dW_factor]: [None], [0.0] and the empty
    sequence are falsy. *)
Definition truthy (d : dW_value) : bool :=
  match d with
  | dW_None => false
  | dW_Scalar w => if Req_dec_T w 0 then false else true
  | dW_Seq l => match l with [] => false | _ :: _ => true end
  end.

(** [d or default]. *)
Definition py_or (d : dW_value) (default : R) : dW_value :=
  if truthy d then d else dW_Scalar default.

End Options.

(** ** StochasticTrajResult *)

Module TrajResult.
Import Qobj Options.

Section Defs.
Context {Op State EOps : Type} `{Expectation Op State}.

(** The object after [Result.__init__] and [_post_init]; the fields are the
    attributes the module reads or writes.  A weight is [None] when the
    solver broadcast an absent [dW_factor]. *)
Record t : Type := mk {
  e_ops : EOps;
  options : SolverOptions;
  times : list R;
  states : list State;
  noise : list Numpy.array2;
  m_ops : list Op;
  dW_factor : list (option R);
  measurements : list (list R)
}.

(** [StochasticTrajResult(e_ops, options, m_ops=..., dw_factor=...)]:
    one empty measurement list per measurement operator. *)
Definition _post_init (e : EOps) (o : SolverOptions) (ms : list Op)
  (dw : list (option R)) : t :=
  mk e o [] [] [] ms dw (map (fun _ => []) ms).

(** Modelled from the spec: [Result.add(t, state)] of the base class, which
    appends the time and the state to the sequences the result owns. *)
Definition Result_add (r : t) (tm : R) (st : State) : t :=
  mk (e_ops r) (options r) (times r ++ [tm]) (states r ++ [st]) (noise r)
     (m_ops r) (dW_factor r) (measurements r).

(** The [for ... in zip(measurements, expects, noises, dW_factor)] loop:
    [measure.append(expect + dW * factor)], stopping at the shortest of the
    four sequences; measurement lists beyond it are left as they are. *)
Fixpoint append_measures (ms : list (list R)) (expects noises : list R)
  (factors : list (option R)) : res (list (list R)) :=
  match ms, expects, noises, factors with
  | m :: ms', e :: es', dW :: ns', f :: fs' =>
      match f with
      | None => Raise TypeError
      | Some factor =>
          let* rest := append_measures ms' es' ns' fs' in
          Ok ((m ++ [(e + dW * factor)%R]) :: rest)
      end
  | _, _, _, _ => Ok ms
  end.

(** [_add_measurement(t, state, noise)]; the call to [print] is not
    modelled. *)
Definition _add_measurement (r : t) (tm : R) (st : State)
  (nz : Numpy.array2) : res t :=
  let expects := map (fun m_op => expect m_op tm st) (m_ops r) in
  let noises := Numpy.sum_axis0 nz in
  let* ms := append_measures (measurements r) expects noises (dW_factor r) in
  Ok (mk (e_ops r) (options r) (times r) (states r) (noise r)
         (m_ops r) (dW_factor r) ms).

(** [add(t, state, noise)]. *)
Definition add (r : t) (tm : R) (st : State)
  (nz : option Numpy.array2) : res t :=
  let r := Result_add r tm st in
  match nz with
  | None => Ok r
  | Some a =>
      let r := mk (e_ops r) (options r) (times r) (states r)
                  (noise r ++ [a]) (m_ops r) (dW_factor r)
                  (measurements r) in
      if store_measurement (options r) then
        let* t1 := index_neg (times r) 1 in
        let* t2 := index_neg (times r) 2 in
        let dt := (t1 - t2)%R in
        _add_measurement r tm st (Numpy.div a dt)
      else Ok r
  end.

End Defs.

Arguments t : clear implicits.

End TrajResult.

(** ** StochasticResult: the ensemble *)

Module StochasticResult.
Import Options.

(** The attributes this class adds to [MultiTrajResult]: the collected
    measurement arrays and the names of the registered processors. *)
Record t : Type := mk {
  options : SolverOptions;
  measurement : list Numpy.ndarray;
  processors : list string
}.

(** The methods [StochasticResult] defines in this file. *)
Definition defined_methods : list string :=
  ["_reduce_expect"%string; "_post_init"%string].

(** [_reduce_expect(trajectory)].  Returns the ensemble and the new value
    of [trajectory.measurements] (the array that replaces the nested list).
    Under [heterodyne] the result of [reshape] is not bound to anything:
    only a failure of the call can be observed. *)
Definition _reduce_expect (self : t) (traj_measurements : list (list R))
  : res (t * Numpy.ndarray) :=
  let* arr := Numpy.array traj_measurements in
  let* _ :=
    (if heterodyne (options self)
     then Numpy.reshape_infer arr 2 (Numpy.last_dim arr)
     else Ok arr) in
  Ok (mk (options self) (measurement self ++ [arr]) (processors self), arr).

(** [_post_init()], after the base class's: an empty collection and, when
    measurements are stored, the processor [self._reduce_measurements].
    That attribute is looked up on the object: it is found when this class
    or one of its base classes defines it, and the lookup raises
    [AttributeError] otherwise.  The base classes are outside this file;
    [inherited] names the methods they provide. *)
Definition _post_init (o : SolverOptions)
  (base_processors inherited : list string) : res t :=
  if store_measurement o
  then
    if existsb (String.eqb "_reduce_measurements")
               (defined_methods ++ inherited)
    then Ok (mk o [] (base_processors ++ ["_reduce_measurements"%string]))
    else Raise AttributeError
  else Ok (mk o [] base_processors).

End StochasticResult.

(** ** StochasticSolver, SMESolver, SSESolver *)

Module Solver.
Import Qobj Options.

(** The two concrete solver classes. *)
Inductive variant : Type :=
| SMESolver
| SSESolver.

(** What the caller passes as [H]: an operator or anything else. *)
Inductive H_arg (Op : Type) : Type :=
| H_op (h : Op)
| H_other.

Arguments H_op {Op} h.
Arguments H_other {Op}.

(** What the caller passes as [sc_ops]: one operator or a list. *)
Inductive sc_arg (Op : Type) : Type :=
| sc_single (c : Op)
| sc_list (l : list Op).

Arguments sc_single {Op} c.
Arguments sc_list {Op} l.

(** The right-hand side built by [_prep_system]. *)
Inductive system (Op : Type) : Type :=
| StochasticOpenSystem (L : Op) (sc_ops : list Op) (heterodyne : bool)
| StochasticClosedSystem (H : Op) (sc_ops : list Op) (heterodyne : bool).

Record t (Op : Type) : Type := mk {
  rhs : system Op;
  options : SolverOptions;
  m_ops : list Op;
  dW_factors : list (option R)
}.

Section Init.
Context {Op : Type} `{Operators Op}.

Definition as_list (sc : sc_arg Op) : list Op :=
  match sc with
  | sc_single c => [c]
  | sc_list l => l
  end.

Definition _prep_system (v : variant) (h : Op) (sc_ops : list Op)
  (het : bool) : system Op :=
  match v with
  | SMESolver =>
      let L := if negb (issuper h) then liouvillian h else h in
      StochasticOpenSystem L sc_ops het
  | SSESolver => StochasticClosedSystem h sc_ops het
  end.

(** [len(sc_ops) * (1 + int(heterodyne))]. *)
Definition n_m_ops (sc_ops : list Op) (het : bool) : nat :=
  length sc_ops * (1 + Nat.b2n het).

(** Lines 211-222: the measurement operators and the [dW_factor] after the
    default has been filled in. *)
Definition choose_m_ops (sc_ops m_ops : list Op) (het : bool)
  (dW : dW_value) : list Op * dW_value :=
  if Nat.eqb (length m_ops) (n_m_ops sc_ops het) then (m_ops, dW)
  else if het then
    (flat_map (fun op => [op_add op (dag op);
                          mul_neg_1j (op_sub op (dag op))]) sc_ops,
     py_or dW (sqrt 2))
  else
    (map (fun op => op_add op (dag op)) sc_ops, py_or dW 1%R).

(** Lines 224-228: the broadcasting rules.  Of the three kinds of value
    only a sequence is an [Iterable] (a name the file does not import
    itself; it is taken to be [collections.abc.Iterable]); anything else,
    [None] included, is repeated [n_m_ops] times. *)
Definition broadcast (sc_ops : list Op) (het : bool) (dW : dW_value)
  : list (option R) :=
  let l :=
    match dW with
    | dW_Seq l => map Some l
    | dW_Scalar w => repeat (Some w) (n_m_ops sc_ops het)
    | dW_None => repeat None (n_m_ops sc_ops het)
    end in
  if Nat.eqb (length l) (length sc_ops) && het
  then flat_map (fun i => [i; i]) l
  else l.

(** [__init__(H, sc_ops, options=options, m_ops=m_ops)] as inherited by the
    class [v]. *)
Definition __init__ (v : variant) (H_ : H_arg Op) (sc : sc_arg Op)
  (o : SolverOptions) (m_ops_ : list Op) : res (t Op) :=
  match H_ with
  | H_other => Raise TypeError
  | H_op h =>
      let sc_ops := as_list sc in
      if existsb (fun c_op => negb (isoper c_op)) sc_ops
      then Raise TypeError
      else
        let rhs_ := _prep_system v h sc_ops (heterodyne o) in
        if store_measurement o then
          let '(ms, dW) :=
            choose_m_ops sc_ops m_ops_ (heterodyne o) (dW_factor o) in
          let dWl := broadcast sc_ops (heterodyne o) dW in
          if negb (Nat.eqb (length dWl) (n_m_ops sc_ops (heterodyne o)))
          then Raise ValueError
          else Ok (mk rhs_ o ms dWl)
        else Ok (mk rhs_ o [] [])
  end.

End Init.

(** Modelled from the spec: the Integrator the solver owns
    ([set_state(t0, state, generator)], [integrate(t, copy)] returning
    [(t, state, noise)]) together with the solver's [_get_generator] and
    [_restore_state].  The integrator is one mutable object shared by every
    trajectory the solver runs: its internal state is threaded through.
    A call that raises is not represented: nothing in this module catches
    a failure of the integrator, which leaves [_run_one_traj] as it was
    raised, and what is stated of a run is stated of the runs in which
    every call of the integrator returns. *)
Class Integrator (IState Raw State Seed Gen : Type) : Type := {
  _get_generator : Seed -> Gen;
  _restore_state : Raw -> State;
  set_state : IState -> R -> Raw -> Gen -> IState;
  integrate : IState -> R -> IState * (R * Raw * option Numpy.array2)
}.

Section Run.
Context {Op State EOps IState Raw Seed Gen : Type}
  `{Expectation Op State} `{Integrator IState Raw State Seed Gen}.

(** The body of [for t in tlist[1:]]. *)
Fixpoint steps (ist : IState) (result : TrajResult.t Op State EOps)
  (ts : list R) : res (IState * TrajResult.t Op State EOps) :=
  match ts with
  | [] => Ok (ist, result)
  | tm :: ts' =>
      let '(ist', (tm', raw, nz)) := integrate ist tm in
      let state_t := _restore_state raw in
      let* result' := TrajResult.add result tm' state_t nz in
      steps ist' result' ts'
  end.

(** [_run_one_traj(seed, state, tlist, e_ops)], from the integrator state
    [ist] left by whatever ran before. *)
Definition _run_one_traj (self : t Op) (ist : IState) (seed : Seed)
  (state : Raw) (tlist : list R) (e : EOps)
  : res (IState * (Seed * TrajResult.t Op State EOps)) :=
  let result :=
    TrajResult._post_init e (options self) (m_ops self) (dW_factors self) in
  let generator := _get_generator seed in
  match tlist with
  | [] => Raise IndexError
  | t0 :: rest =>
      let ist0 := set_state ist t0 state generator in
      let state_t := _restore_state state in
      let* result0 := TrajResult.add result t0 state_t None in
      let* (ist', result') := steps ist0 result0 rest in
      Ok (ist', (seed, result'))
  end.

End Run.

End Solver.

(** ** A small concrete instance, used to run the definitions *)

Module Toy.
Import Qobj Options.

(** Operators as formal expressions over named atoms. *)
Inductive term : Type :=
| Atom (name : nat) (ty : qobj_type)
| Add (a b : term)
| Sub (a b : term)
| Dag (a : term)
| MulNeg1j (a : term)
| Liouvillian (a : term).

Definition dag_type (ty : qobj_type) : qobj_type :=
  match ty with
  | ket => bra
  | bra => ket
  | operator_ket => operator_bra
  | operator_bra => operator_ket
  | ty' => ty'
  end.

Fixpoint term_type (a : term) : qobj_type :=
  match a with
  | Atom _ ty => ty
  | Add a' _ => term_type a'
  | Sub a' _ => term_type a'
  | Dag a' => dag_type (term_type a')
  | MulNeg1j a' => term_type a'
  | Liouvillian _ => super
  end.

#[export] Instance term_operators : Operators term := {
  op_add := Add;
  op_sub := Sub;
  dag := Dag;
  mul_neg_1j := MulNeg1j;
  liouvillian := Liouvillian;
  qtype := term_type
}.

Fixpoint term_size (a : term) : nat :=
  match a with
  | Atom _ _ => 1
  | Add a' b' => term_size a' + term_size b'
  | Sub a' b' => term_size a' + term_size b'
  | Dag a' => term_size a'
  | MulNeg1j a' => term_size a'
  | Liouvillian a' => term_size a'
  end.

(** States are single numbers; the expectation value is a product. *)
#[export] Instance term_expect : Expectation term R := {
  expect := fun m _ st => (INR (term_size m) * st)%R
}.

(** An integrator whose internal state is the current time, the current
    value, a counter-style generator and the number of calls made so far.
    [set_state] resets everything but the call count.  Each step reports two
    sub-steps on [nchan] channels. *)
Definition toy_istate : Type := (R * R * nat * nat)%type.

Definition toy_noise (nchan g : nat) : Numpy.array2 :=
  Numpy.mkArray2 nchan [repeat (INR g) nchan; repeat 1%R nchan].

Definition toy_integrator (nchan : nat)
  : Solver.Integrator toy_istate R R nat nat := {|
  Solver._get_generator := fun seed => seed;
  Solver._restore_state := fun raw => raw;
  Solver.set_state := fun ist t0 st g =>
    let '(_, _, _, calls) := ist in (t0, st, g, calls);
  Solver.integrate := fun ist tm =>
    let '(t0, st, g, calls) := ist in
    let st' := (st + (tm - t0) * INR g)%R in
    ((tm, st', S g, S calls), (tm, st', Some (toy_noise nchan g)))
|}.

(** Two integrator states agree when they differ in the call count only. *)
Definition toy_agree (i1 i2 : toy_istate) : Prop :=
  fst i1 = fst i2.

Definition a : term := Atom 0 oper.
Definition b : term := Atom 1 oper.
Definition sup : term := Atom 2 super.
Definition m : term := Atom 3 oper.

(** The homodyne solver for the single collapse operator [a] with the
    default weight, and a fresh integrator state. *)
Definition solver : Solver.t term :=
  Solver.mk (Solver.StochasticClosedSystem m [a] false)
            (mkOptions false true dW_None)
            [Add a (Dag a)] [Some 1%R].

Definition fresh : toy_istate := (0%R, 0%R, 0, 0).

Definition used : toy_istate := (5%R, 3%R, 2, 9).

End Toy.

(** ** What the integrator reports over a time grid *)

Module Integration.
Import Solver.

Section Trace.
Context {IState Raw State Seed Gen : Type}
  `{Integrator IState Raw State Seed Gen}.

(** The [(t, state, noise)] triples returned by the successive calls
    [integrate(t)] for [t] in [ts], starting from the state [ist]. *)
Fixpoint trace (ist : IState) (ts : list R)
  : list (R * Raw * option Numpy.array2) :=
  match ts with
  | [] => []
  | tm :: ts' => snd (integrate ist tm) :: trace (fst (integrate ist tm)) ts'
  end.

(** The integrator state after those calls. *)
Fixpoint final (ist : IState) (ts : list R) : IState :=
  match ts with
  | [] => ist
  | tm :: ts' => final (fst (integrate ist tm)) ts'
  end.

(** The noise arrays among the reported triples ([noise is not None]). *)
Definition reported_noise (outs : list (R * Raw * option Numpy.array2))
  : list Numpy.array2 :=
  flat_map (fun out => match snd out with Some a => [a] | None => [] end)
           outs.

End Trace.

End Integration.

(** ** The registries of integrators *)

Module Registry.

Section Dict.
Context {V : Type}.

(** A Python [dict] with string keys: the items in insertion order, every
    key once. *)
Definition dict : Type := list (string * V).

Definition keys (d : dict) : list string := map fst d.

(** [d.get(k)]. *)
Fixpoint get (d : dict) (k : string) : option V :=
  match d with
  | [] => None
  | (k', v) :: d' => if String.eqb k' k then Some v else get d' k
  end.

(** [d[k] = v]: a key already present keeps its place, a new one goes to
    the end. *)
Fixpoint set (d : dict) (k : string) (v : V) : dict :=
  match d with
  | [] => [(k, v)]
  | (k', v') :: d' =>
      if String.eqb k' k then (k', v) :: d' else (k', v') :: set d' k v
  end.

(** [{**d, **b}]. *)
Definition update (d b : dict) : dict :=
  fold_left (fun acc kv => set acc (fst kv) (snd kv)) b d.

End Dict.

Arguments dict V : clear implicits.

(** The classes that carry an [_avail_integrators] table of their own. *)
Inductive cls : Type :=
| StochasticSolver
| Subclass (v : Solver.variant).

(** The three class attributes [_avail_integrators]. *)
Record registries (V : Type) : Type := mkRegistries {
  base_integrators : dict V;
  sme_integrators : dict V;
  sse_integrators : dict V
}.

(** [cls._avail_integrators]. *)
Definition _avail_integrators {V : Type} (c : cls) (regs : registries V)
  : dict V :=
  match c with
  | StochasticSolver => base_integrators regs
  | Subclass Solver.SMESolver => sme_integrators regs
  | Subclass Solver.SSESolver => sse_integrators regs
  end.

(** [cls.avail_integrators()]; the copy returned for [StochasticSolver] is
    the table's value. *)
Definition avail_integrators {V : Type} (c : cls) (regs : registries V)
  : dict V :=
  match c with
  | StochasticSolver => _avail_integrators StochasticSolver regs
  | Subclass _ =>
      update (_avail_integrators StochasticSolver regs)
             (_avail_integrators c regs)
  end.

End Registry.

(** ** smesolve and ssesolve, up to the solver they build *)

Module Dispatch.
Import Qobj Options Solver.

(** Modelled from the spec: [liouvillian(H, c_ops)], the superoperator built
    from an optional Hamiltonian and a list of collapse operators. *)
Class Liouville (Op : Type) : Type := {
  liouvillian_c : option Op -> list Op -> Op
}.

(** The entries of the table [solver_options] that this module reads. *)
Definition solver_options : SolverOptions := mkOptions false false dW_None.

(** [options or {}], with the keys that are not given taken from
    [solver_options]. *)
Definition options_or_default (options : option SolverOptions)
  : SolverOptions :=
  match options with
  | Some o => o
  | None => solver_options
  end.

Section Solve.
Context {Op : Type} `{Operators Op} `{Liouville Op}.

(** The generator [L] that [smesolve] passes to [SMESolver]. *)
Definition smesolve_L (H_ : Op) (c_ops : list Op) : Op :=
  if issuper H_
  then op_add H_ (liouvillian_c None c_ops)
  else liouvillian_c (Some H_) c_ops.

(** The solver [sol] of [smesolve], on which it then calls [run]. *)
Definition smesolve_sol (H_ : Op) (c_ops sc_ops m_ops_ : list Op)
  (options : option SolverOptions) : res (Solver.t Op) :=
  __init__ SMESolver (H_op (smesolve_L H_ c_ops)) (sc_list sc_ops)
           (options_or_default options) m_ops_.

(** The solver [sol] of [ssesolve], on which it then calls [run]. *)
Definition ssesolve_sol (H_ : Op) (sc_ops m_ops_ : list Op)
  (options : option SolverOptions) : res (Solver.t Op) :=
  __init__ SSESolver (H_op H_) (sc_list sc_ops)
           (options_or_default options) m_ops_.

End Solve.

End Dispatch.

(** ** More of the concrete instance *)

Module ToyDispatch.
Import Qobj Toy.

(** [liouvillian(H, c_ops)] as a formal expression: the Liouvillian of the
    sum of what it is given. *)
#[export] Instance term_liouville : Dispatch.Liouville term := {
  Dispatch.liouvillian_c := fun h cs =>
    Liouvillian (fold_left Add cs
                   (match h with Some x => x | None => Atom 9 oper end))
}.

Definition c : term := Atom 4 oper.

(** An integrator that never reports noise. *)
Definition quiet_integrator : Solver.Integrator toy_istate R R nat nat := {|
  Solver._get_generator := fun seed => seed;
  Solver._restore_state := fun raw => raw;
  Solver.set_state := fun ist t0 st g =>
    let '(_, _, _, calls) := ist in (t0, st, g, calls);
  Solver.integrate := fun ist tm =>
    let '(t0, st, g, calls) := ist in
    ((tm, st, g, S calls), (tm, st, None))
|}.

End ToyDispatch.

(** ** The arithmetic of a measurement entry on doubles *)

Module Float64.
Import PrimFloat.
Local Open Scope float_scope.

(** numpy computes with IEEE 754 binary64 numbers, which the rest of this
    development idealises as real numbers.  This module reads lines 33-34,
    20 and 25 on the doubles themselves: it is where the order of the
    division and of the sum shows in the last bit. *)

Fixpoint vadd (u v : list float) : list float :=
  match u, v with
  | x :: u', y :: v' => (x + y) :: vadd u' v'
  | _, _ => []
  end.

(** [noise / dt], element by element. *)
Definition div (rows : list (list float)) (dt : float)
  : list (list float) :=
  map (map (fun x => x / dt)) rows.

(** [np.sum(noise, axis=0)]: the rows added up in order from the first
    one; no row gives zeros. *)
Definition sum_axis0 (ncols : nat) (rows : list (list float))
  : list float :=
  match rows with
  | [] => repeat 0 ncols
  | r :: rs => fold_left vadd rs r
  end.






End Float64.

(** * Properties *)

Unset Implicit Arguments.

(** ** Results and negative indices *)

Lemma bind_ok {A B : Type} (c : res A) (k : A -> res B) (b : B) :
  bind c k = Ok b -> exists a, c = Ok a /\ k a = Ok b.
Proof.
  destruct c as [a|e]; simpl; intro Hk.
  - exists a; split; [reflexivity | exact Hk].
  - discriminate Hk.
Qed.

Lemma index_neg_last {A : Type} (xs : list A) (x : A) :
  index_neg (xs ++ [x]) 1 = Ok x.
Proof.
  unfold index_neg. rewrite rev_app_distr. reflexivity.
Qed.

Lemma index_neg_before_last {A : Type} (xs : list A) (x y : A) (j : nat) :
  nth_error xs j = Some y -> S j = length xs ->
  index_neg (xs ++ [x]) 2 = Ok y.
Proof.
  intros Hy Hj. unfold index_neg. rewrite rev_app_distr. simpl.
  destruct (rev xs) as [|z zs] eqn:Hrev.
  - apply (f_equal (@length A)) in Hrev. rewrite length_rev in Hrev.
    simpl in Hrev. lia.
  - simpl. apply (f_equal (@rev A)) in Hrev. rewrite rev_involutive in Hrev.
    simpl in Hrev. subst xs. rewrite length_app in Hj. simpl in Hj.
    rewrite nth_error_app2 in Hy by lia.
    replace (j - length (rev zs)) with 0 in Hy by lia.
    simpl in Hy. congruence.
Qed.

(** ** numpy *)

Module NumpyFacts.
Import Numpy.

Lemma vadd_length (u v : list R) :
  length (vadd u v) = Nat.min (length u) (length v).
Proof.
  revert v; induction u as [|x u IH]; intros [|y v]; simpl; auto.
Qed.

Lemma fold_vadd_length (rs : list (list R)) (acc : list R) (n : nat) :
  forallb (fun r => Nat.eqb (length r) n) rs = true ->
  length acc = n ->
  length (fold_left vadd rs acc) = n.
Proof.
  revert acc; induction rs as [|r rs IH]; simpl; intros acc Hrs Hacc.
  - exact Hacc.
  - apply andb_prop in Hrs. destruct Hrs as [Hr Hrs].
    apply Nat.eqb_eq in Hr. apply IH; [exact Hrs|].
    rewrite vadd_length. lia.
Qed.

(** Summing along the sub-step axis keeps one entry per column. *)
Lemma sum_axis0_length (a : array2) :
  wf a = true -> length (sum_axis0 a) = ncols a.
Proof.
  intro Hwf. unfold sum_axis0.
  apply fold_vadd_length; [exact Hwf | apply repeat_length].
Qed.

Lemma vadd_map_div (d : R) (u v : list R) :
  vadd (map (fun x => (x / d)%R) u) (map (fun x => (x / d)%R) v)
  = map (fun x => (x / d)%R) (vadd u v).
Proof.
  revert v; induction u as [|x u IH]; intros [|y v]; simpl; auto.
  rewrite IH. f_equal. unfold Rdiv. ring.
Qed.

Lemma fold_vadd_map_div (d : R) (rs : list (list R)) (acc : list R) :
  fold_left vadd (map (map (fun x => (x / d)%R)) rs)
            (map (fun x => (x / d)%R) acc)
  = map (fun x => (x / d)%R) (fold_left vadd rs acc).
Proof.
  revert acc; induction rs as [|r rs IH]; simpl; intro acc.
  - reflexivity.
  - rewrite vadd_map_div. apply IH.
Qed.

(** Dividing every increment by [dt] and then summing the sub-steps is
    dividing the summed increments by [dt]. *)
Lemma sum_axis0_div (a : array2) (d : R) :
  sum_axis0 (div a d) = map (fun x => (x / d)%R) (sum_axis0 a).
Proof.
  unfold sum_axis0, div. simpl.
  rewrite <- fold_vadd_map_div. f_equal.
  rewrite map_repeat. f_equal. unfold Rdiv. ring.
Qed.

End NumpyFacts.

(** ** Recording one trajectory *)

Module TrajFacts.
Import Qobj Options TrajResult.

Lemma append_measures_total (ms : list (list R)) (es ns ws : list R) :
  exists ms', append_measures ms es ns (map Some ws) = Ok ms'
              /\ length ms' = length ms.
Proof.
  revert es ns ws; induction ms as [|chan ms IH]; intros es ns ws.
  - exists []; split; reflexivity.
  - destruct es as [|e es]; [eexists; split; reflexivity|].
    destruct ns as [|n ns]; [eexists; split; reflexivity|].
    destruct ws as [|w ws]; [eexists; split; reflexivity|].
    destruct (IH es ns ws) as [ms' [Hms' Hlen]].
    simpl. rewrite Hms'. simpl. eexists; split; [reflexivity|].
    simpl. congruence.
Qed.

(** One pass of the loop appends exactly one entry to every channel that
    has an expectation value, a summed increment and a weight. *)
Lemma append_measures_entry (ms ms' : list (list R)) (es ns ws : list R) :
  append_measures ms es ns (map Some ws) = Ok ms' ->
  forall i chan e n w,
    nth_error ms i = Some chan -> nth_error es i = Some e ->
    nth_error ns i = Some n -> nth_error ws i = Some w ->
    nth_error ms' i = Some (chan ++ [(e + n * w)%R]).
Proof.
  revert ms' es ns ws; induction ms as [|c ms IH];
    intros ms' es ns ws Happ i chan e n w Hc He Hn Hw.
  - destruct i; discriminate Hc.
  - destruct es as [|e0 es]; [destruct i; discriminate He|].
    destruct ns as [|n0 ns]; [destruct i; discriminate Hn|].
    destruct ws as [|w0 ws]; [destruct i; discriminate Hw|].
    simpl in Happ. apply bind_ok in Happ.
    destruct Happ as [rest [Hrest Heq]]. injection Heq as <-.
    destruct i as [|i]; simpl in *.
    + congruence.
    + eapply IH; eassumption.
Qed.

Ltac record_fields :=
  cbn [e_ops options times states noise m_ops dW_factor measurements].

Section Invariant.
Context {Op State EOps : Type} `{Expectation Op State}.

(** What holds of a trajectory result between two calls of [add] once the
    initial point is in: the sequences are aligned and every recorded
    entry is the detector current of its step. *)
Record recorded (ws : list R) (r : t Op State EOps) : Prop := {
  rec_store : store_measurement (options r) = true;
  rec_weights : dW_factor r = map Some ws;
  rec_nweights : length ws = length (m_ops r);
  rec_states : length (states r) = length (times r);
  rec_noise : length (times r) = S (length (noise r));
  rec_channels : length (measurements r) = length (m_ops r);
  rec_steps : forall chan,
      In chan (measurements r) -> length chan = length (noise r);
  rec_entry : forall i j m_op w tp tm st a,
      nth_error (m_ops r) i = Some m_op ->
      nth_error ws i = Some w ->
      nth_error (times r) j = Some tp ->
      nth_error (times r) (S j) = Some tm ->
      nth_error (states r) (S j) = Some st ->
      nth_error (noise r) j = Some a ->
      exists chan,
        nth_error (measurements r) i = Some chan
        /\ nth_error chan j
           = Some (expect m_op tm st
                   + nth i (Numpy.sum_axis0 a) 0 / (tm - tp) * w)%R
}.

Lemma recorded_initial (ws : list R) (e : EOps) (o : SolverOptions)
  (ms : list Op) (t0 : R) (st : State) :
  store_measurement o = true -> length ws = length ms ->
  recorded ws (Result_add (_post_init e o ms (map Some ws)) t0 st).
Proof.
  intros Hstore Hlen. constructor; simpl; auto.
  - apply length_map.
  - intros chan Hin. apply in_map_iff in Hin.
    destruct Hin as [x [<- _]]. reflexivity.
  - intros i j m_op w tp tm st' a0 _ _ _ _ _ Ha.
    destruct j; discriminate Ha.
Qed.

Lemma recorded_add (ws : list R) (r : t Op State EOps) (tm : R) (st : State)
  (a : Numpy.array2) :
  recorded ws r ->
  Numpy.wf a = true -> length (m_ops r) <= Numpy.ncols a ->
  exists r',
    add r tm st (Some a) = Ok r'
    /\ recorded ws r'
    /\ m_ops r' = m_ops r
    /\ times r' = times r ++ [tm].
Proof.
  intros Inv Hwf Hcols.
  destruct Inv as [rec_store0 rec_weights0 rec_nweights0 rec_states0
                     rec_noise0 rec_channels0 rec_steps0 rec_entry0].
  assert (Hlast : exists tp, nth_error (times r) (length (noise r)) = Some tp).
  { destruct (nth_error (times r) (length (noise r))) as [tp|] eqn:E;
      [eauto|]. apply nth_error_None in E. lia. }
  destruct Hlast as [tp Htp].
  unfold add. simpl. rewrite rec_store0.
  rewrite index_neg_last.
  rewrite (index_neg_before_last (times r) tm tp _ Htp) by lia.
  simpl. unfold _add_measurement. simpl. rewrite rec_weights0.
  destruct (append_measures_total (measurements r)
              (map (fun m_op => expect m_op tm st) (m_ops r))
              (Numpy.sum_axis0 (Numpy.div a (tm - tp))) ws)
    as [ms' [Hms' Hlen']].
  rewrite Hms'. simpl. eexists; split; [reflexivity|].
  pose proof (append_measures_entry _ _ _ _ _ Hms') as Hentry.
  assert (Hsum : length (Numpy.sum_axis0 (Numpy.div a (tm - tp)))
                 = Numpy.ncols a).
  { rewrite NumpyFacts.sum_axis0_div, length_map.
    apply NumpyFacts.sum_axis0_length; exact Hwf. }
  assert (Hnew : forall i chan m_op w,
             nth_error (measurements r) i = Some chan ->
             nth_error (m_ops r) i = Some m_op ->
             nth_error ws i = Some w ->
             nth_error ms' i
             = Some (chan ++ [(expect m_op tm st
                      + nth i (Numpy.sum_axis0 a) 0 / (tm - tp) * w)%R])).
  { intros i chan m_op w Hchan Hm Hw.
    assert (Hi : i < length (m_ops r)).
    { apply nth_error_Some. congruence. }
    erewrite Hentry; [reflexivity | exact Hchan | | | exact Hw].
    - rewrite nth_error_map, Hm. reflexivity.
    - rewrite NumpyFacts.sum_axis0_div. rewrite nth_error_map.
      rewrite (nth_error_nth' (Numpy.sum_axis0 a) 0%R).
      + reflexivity.
      + rewrite NumpyFacts.sum_axis0_length by exact Hwf. lia. }
  split; [|split; reflexivity].
  constructor; record_fields; auto.
  - rewrite !length_app. simpl. lia.
  - rewrite !length_app. simpl. lia.
  - congruence.
  - intros chan Hin. apply In_nth_error in Hin. destruct Hin as [i Hi].
    assert (Hlt : i < length (measurements r)).
    { rewrite <- Hlen'. apply nth_error_Some. congruence. }
    destruct (nth_error (measurements r) i) as [c0|] eqn:Hc0;
      [|apply nth_error_None in Hc0; lia].
    destruct (nth_error (m_ops r) i) as [m_op|] eqn:Hm;
      [|apply nth_error_None in Hm; lia].
    destruct (nth_error ws i) as [w|] eqn:Hw;
      [|apply nth_error_None in Hw; lia].
    rewrite (Hnew i c0 m_op w Hc0 Hm Hw) in Hi. injection Hi as <-.
    rewrite !length_app. simpl.
    rewrite (rec_steps0 c0) by (eapply nth_error_In; exact Hc0). reflexivity.
  - intros i j m_op w tp' tm' st' a' Hm Hw Htp' Htm' Hst' Ha'.
    assert (Hi : i < length (m_ops r)).
    { apply nth_error_Some. congruence. }
    destruct (nth_error (measurements r) i) as [c0|] eqn:Hc0;
      [|apply nth_error_None in Hc0; lia].
    assert (Hc0len : length c0 = length (noise r)).
    { apply rec_steps0. eapply nth_error_In; exact Hc0. }
    exists (c0 ++ [(expect m_op tm st
                    + nth i (Numpy.sum_axis0 a) 0 / (tm - tp) * w)%R]).
    split; [apply Hnew; assumption|].
    assert (Hj : j < length (noise r) \/ j = length (noise r)).
    { assert (Hlt : j < length (noise r ++ [a])).
      { apply nth_error_Some. congruence. }
      rewrite length_app in Hlt. simpl in Hlt. lia. }
    destruct Hj as [Hj | ->].
    + rewrite nth_error_app1 in Htp' by lia.
      rewrite nth_error_app1 in Htm' by lia.
      rewrite nth_error_app1 in Hst' by lia.
      rewrite nth_error_app1 in Ha' by lia.
      destruct (rec_entry0 i j m_op w tp' tm' st' a'
                  Hm Hw Htp' Htm' Hst' Ha') as [c1 [Hc1 Hval]].
      rewrite Hc0 in Hc1. injection Hc1 as <-.
      rewrite nth_error_app1 by lia. exact Hval.
    + rewrite nth_error_app1 in Htp' by lia.
      rewrite nth_error_app2 in Htm' by lia.
      rewrite nth_error_app2 in Hst' by lia.
      rewrite nth_error_app2 in Ha' by lia.
      replace (S (length (noise r)) - length (times r)) with 0 in Htm'
        by lia.
      replace (S (length (noise r)) - length (states r)) with 0 in Hst'
        by lia.
      rewrite Nat.sub_diag in Ha'. simpl in Htm', Hst', Ha'.
      injection Htm' as <-. injection Hst' as <-. injection Ha' as <-.
      rewrite Htp in Htp'. injection Htp' as <-.
      rewrite nth_error_app2 by lia.
      rewrite Hc0len, Nat.sub_diag. reflexivity.
Qed.

End Invariant.

End TrajFacts.

(** ** Running one trajectory *)

Module RunFacts.
Import Qobj Options Solver.

Section Run.
Context {Op State EOps IState Raw Seed Gen : Type}
  `{Expectation Op State} `{Integrator IState Raw State Seed Gen}.

(** The contract of the integrator on noise: every step reports a
    rectangular array of increments with a column for each of [n]
    channels. *)
Definition reports_noise (n : nat) : Prop :=
  forall (ist : IState) (tm : R),
  exists ist' tm' raw a,
    integrate ist tm = (ist', (tm', raw, Some a))
    /\ Numpy.wf a = true /\ n <= Numpy.ncols a.

(** The contract of the integrator on reproducibility, relative to a
    relation [agree] between internal states: [set_state] forgets whatever
    the integrator did before, and steps from agreeing states report the
    same time, state and noise and agree again. *)
Definition reproducible (agree : IState -> IState -> Prop) : Prop :=
  (forall i1 i2 t0 raw g,
      agree (set_state i1 t0 raw g) (set_state i2 t0 raw g))
  /\ (forall i1 i2 tm,
         agree i1 i2 ->
         snd (integrate i1 tm) = snd (integrate i2 tm)
         /\ agree (fst (integrate i1 tm)) (fst (integrate i2 tm))).

Lemma steps_recorded (ws : list R) (ts : list R) :
  forall (ist : IState) (r : TrajResult.t Op State EOps),
    reports_noise (length (TrajResult.m_ops r)) ->
    TrajFacts.recorded ws r ->
    exists ist' r',
      steps ist r ts = Ok (ist', r')
      /\ TrajFacts.recorded ws r'
      /\ TrajResult.m_ops r' = TrajResult.m_ops r
      /\ length (TrajResult.times r')
         = length (TrajResult.times r) + length ts.
Proof.
  induction ts as [|tm ts IH]; intros ist r Hnoise Hrec.
  - exists ist, r. simpl. rewrite Nat.add_0_r. auto.
  - destruct (Hnoise ist tm) as [ist1 [tm1 [raw [a [Hint [Hwf Hcols]]]]]].
    destruct (TrajFacts.recorded_add ws r tm1 (_restore_state raw) a
                Hrec Hwf Hcols)
      as [r1 [Hadd [Hrec1 [Hm1 Ht1]]]].
    rewrite <- Hm1 in Hnoise.
    destruct (IH ist1 r1 Hnoise Hrec1)
      as [ist' [r' [Hsteps [Hrec' [Hm' Ht']]]]].
    exists ist', r'. simpl. rewrite Hint, Hadd. simpl.
    split; [exact Hsteps|]. split; [exact Hrec'|]. split; [congruence|].
    rewrite Ht', Ht1, length_app. simpl. lia.
Qed.

Lemma add_returns (ws : list R) (r : TrajResult.t Op State EOps) (tm : R)
  (st : State) (nz : option Numpy.array2) :
  TrajResult.dW_factor r = map Some ws ->
  nz = None \/ TrajResult.times r <> [] ->
  exists r',
    TrajResult.add r tm st nz = Ok r'
    /\ TrajResult.dW_factor r' = map Some ws
    /\ TrajResult.times r' = TrajResult.times r ++ [tm].
Proof.
  intros Hws Hnz. unfold TrajResult.add.
  destruct nz as [a|]; [|eexists; repeat split; auto].
  destruct Hnz as [Hnz|Hts]; [discriminate Hnz|].
  TrajFacts.record_fields. unfold TrajResult.Result_add.
  TrajFacts.record_fields.
  destruct (store_measurement (TrajResult.options r));
    [|eexists; repeat split; auto].
  rewrite index_neg_last.
  assert (Hlast : exists tp j, nth_error (TrajResult.times r) j = Some tp
                               /\ S j = length (TrajResult.times r)).
  { destruct (TrajResult.times r) as [|x xs] eqn:E; [congruence|].
    destruct (nth_error (x :: xs) (length xs)) as [tp|] eqn:E';
      [exists tp, (length xs); auto|].
    apply nth_error_None in E'. simpl in E'. lia. }
  destruct Hlast as [tp [j [Htp Hj]]].
  rewrite (index_neg_before_last _ tm tp j Htp Hj).
  cbn [bind]. unfold TrajResult._add_measurement.
  TrajFacts.record_fields. rewrite Hws.
  match goal with
  | |- context [TrajResult.append_measures ?ms ?es ?ns (map Some ws)] =>
      destruct (TrajFacts.append_measures_total ms es ns ws) as [ms' [-> _]]
  end.
  cbn [bind]. eexists; repeat split; auto.
Qed.

Lemma steps_returns (ws : list R) (ts : list R) :
  forall (ist : IState) (r : TrajResult.t Op State EOps),
    TrajResult.dW_factor r = map Some ws ->
    TrajResult.times r <> [] ->
    exists ist' r', steps ist r ts = Ok (ist', r').
Proof.
  induction ts as [|tm ts IH]; intros ist r Hws Hts.
  - exists ist, r. reflexivity.
  - simpl. destruct (integrate ist tm) as [ist1 [[tm1 raw] nz]].
    destruct (add_returns ws r tm1 (_restore_state raw) nz Hws
                (or_intror Hts))
      as [r1 [Hadd [Hws1 Ht1]]].
    rewrite Hadd. cbn [bind]. apply IH; [exact Hws1|].
    rewrite Ht1. intro E. apply app_eq_nil in E. destruct E; discriminate.
Qed.

Lemma steps_agree (agree : IState -> IState -> Prop) (ts : list R) :
  reproducible agree ->
  forall (i1 i2 i1' : IState) (r r' : TrajResult.t Op State EOps),
    agree i1 i2 ->
    steps i1 r ts = Ok (i1', r') ->
    exists i2', steps i2 r ts = Ok (i2', r').
Proof.
  intros [_ Hstep]. induction ts as [|tm ts IH];
    intros i1 i2 i1' r r' Hagree Hsteps.
  - simpl in *. injection Hsteps as _ <-. eexists; reflexivity.
  - simpl in *. destruct (Hstep i1 i2 tm Hagree) as [Hout Hnext].
    destruct (integrate i1 tm) as [j1 [[tm1 raw1] nz1]].
    destruct (integrate i2 tm) as [j2 [[tm2 raw2] nz2]].
    simpl in Hout, Hnext. injection Hout as <- <- <-.
    destruct (TrajResult.add r tm1 (_restore_state raw1) nz1) as [r1|ex];
      [|discriminate Hsteps].
    cbn [bind] in *. eapply IH; eassumption.
Qed.

End Run.

End RunFacts.

(** ** Reproducibility of a trajectory *)

Module Trajectory.
Import Qobj Options Solver RunFacts.

Section Run.
Context {Op State EOps IState Raw Seed Gen : Type}
  `{Expectation Op State} `{Integrator IState Raw State Seed Gen}.

(** C9.  Against a reproducible integrator, two runs of one trajectory
    with the same seed, state, time grid and [e_ops] return the same
    result (times, states, noise and measurements), whatever the integrator
    did before each run, and both return the seed they were given. *)
Theorem run_one_traj_reproducible
  (agree : IState -> IState -> Prop) (self : Solver.t Op) (ws : list R)
  (i1 i2 : IState) (seed : Seed) (state : Raw) (tlist : list R) (e : EOps) :
  reproducible agree ->
  dW_factors self = map Some ws ->
  tlist <> [] ->
  exists (i1' i2' : IState) (r : TrajResult.t Op State EOps),
    _run_one_traj self i1 seed state tlist e = Ok (i1', (seed, r))
    /\ _run_one_traj self i2 seed state tlist e = Ok (i2', (seed, r)).
Proof.
  intros Hrep Hws Hne.
  destruct tlist as [|t0 rest]; [congruence|].
  unfold _run_one_traj. rewrite Hws.
  unfold TrajResult.add. cbn [bind].
  set (r0 := TrajResult.Result_add _ t0 (_restore_state state)).
  assert (Hts : TrajResult.times r0 <> []) by (simpl; discriminate).
  assert (Hw0 : TrajResult.dW_factor r0 = map Some ws) by reflexivity.
  destruct (steps_returns ws rest
              (set_state i1 t0 state (_get_generator seed)) r0 Hw0 Hts)
    as [i1' [r Hsteps1]].
  destruct (steps_agree agree rest Hrep
              (set_state i1 t0 state (_get_generator seed))
              (set_state i2 t0 state (_get_generator seed)) i1' r0 r
              (proj1 Hrep i1 i2 t0 state (_get_generator seed)) Hsteps1)
    as [i2' Hsteps2].
  exists i1', i2', r. rewrite Hsteps1, Hsteps2. split; reflexivity.
Qed.

End Run.

End Trajectory.

(** ** The concrete instance meets the integrator contracts *)

Module ToyFacts.
Import Solver RunFacts Toy.

Lemma toy_reports_noise (n : nat) :
  @reports_noise _ _ _ _ _ (toy_integrator n) n.
Proof.
  intros [[[t0 st] g] calls] tm. do 4 eexists.
  split; [reflexivity|]. split.
  - unfold toy_noise, Numpy.wf. simpl. rewrite !repeat_length.
    rewrite Nat.eqb_refl. reflexivity.
  - simpl. apply le_n.
Qed.

Lemma toy_reproducible (n : nat) :
  @reproducible _ _ _ _ _ (toy_integrator n) toy_agree.
Proof.
  split.
  - intros [[[t1 s1] g1] c1] [[[t2 s2] g2] c2] t0 raw g. reflexivity.
  - intros [[[t1 s1] g1] c1] [[[t2 s2] g2] c2] tm Hagree.
    unfold toy_agree in Hagree. simpl in Hagree.
    injection Hagree as -> -> ->. split; reflexivity.
Qed.

(** The solver used in the examples is the one the constructor builds for
    the collapse operator [a] under homodyne detection. *)
Lemma toy_solver_built :
  __init__ SSESolver (H_op m) (sc_list [a])
           (Options.mkOptions false true Options.dW_None) []
  = Ok solver.
Proof. reflexivity. Qed.

End ToyFacts.

Module TrajectoryInstances.
Import Options Solver Toy.

Lemma run_one_traj_reproducible_witness :
  exists i1' i2' r,
    @_run_one_traj _ _ unit _ _ _ _ term_expect (toy_integrator 1)
      solver fresh 7 0%R [0%R; 1%R; 3%R] tt = Ok (i1', (7, r))
    /\ @_run_one_traj _ _ unit _ _ _ _ term_expect (toy_integrator 1)
         solver used 7 0%R [0%R; 1%R; 3%R] tt = Ok (i2', (7, r)).
Proof.
  apply (@Trajectory.run_one_traj_reproducible
           _ _ unit _ _ _ _ term_expect (toy_integrator 1)
           toy_agree solver [1%R]).
  - exact (ToyFacts.toy_reproducible 1).
  - reflexivity.
  - discriminate.
Defined.

End TrajectoryInstances.

(** ** Lists built two entries at a time *)

Lemma flat_map_pair_length {A B : Type} (f g : A -> B) (l : list A) :
  length (flat_map (fun x => [f x; g x]) l) = 2 * length l.
Proof.
  induction l as [|x l IH]; simpl; [reflexivity | rewrite IH; lia].
Qed.

Lemma flat_map_pair_nth {A B : Type} (f g : A -> B) (l : list A) :
  forall i x,
    nth_error l i = Some x ->
    nth_error (flat_map (fun x => [f x; g x]) l) (2 * i) = Some (f x)
    /\ nth_error (flat_map (fun x => [f x; g x]) l) (2 * i + 1) = Some (g x).
Proof.
  induction l as [|y l IH]; intros [|i] x Hx; try discriminate Hx.
  - injection Hx as ->. split; reflexivity.
  - replace (2 * S i) with (S (S (2 * i))) by lia.
    replace (S (S (2 * i)) + 1) with (S (S (2 * i + 1))) by lia.
    cbn [flat_map app nth_error]. apply IH. exact Hx.
Qed.

(** ** Solver construction *)

Module SolverFacts.
Import Qobj Options Solver.

Section Init.
Context {Op : Type} `{Operators Op}.

Lemma checks_pass (sc_ops : list Op) :
  forallb isoper sc_ops = true ->
  existsb (fun c_op => negb (isoper c_op)) sc_ops = false.
Proof.
  induction sc_ops as [|c l IH]; simpl; [reflexivity|].
  intro Hall. apply andb_prop in Hall. destruct Hall as [-> Hl].
  simpl. apply IH. exact Hl.
Qed.

Lemma n_m_ops_heterodyne (sc_ops : list Op) :
  n_m_ops sc_ops true = 2 * length sc_ops.
Proof. unfold n_m_ops. simpl. lia. Qed.

Lemma n_m_ops_homodyne (sc_ops : list Op) :
  n_m_ops sc_ops false = length sc_ops.
Proof. unfold n_m_ops. simpl. lia. Qed.

(** Something that is not a sequence is repeated once per channel, and the
    per-operator doubling never applies to it. *)
Lemma broadcast_repeat (sc_ops : list Op) (het : bool) (x : option R)
  (l : list (option R)) :
  l = repeat x (n_m_ops sc_ops het) ->
  (if Nat.eqb (length l) (length sc_ops) && het
   then flat_map (fun i => [i; i]) l else l)
  = repeat x (n_m_ops sc_ops het).
Proof.
  intros ->. rewrite repeat_length.
  destruct (Nat.eqb (n_m_ops sc_ops het) (length sc_ops)) eqn:E;
    [|reflexivity].
  destruct het; [|reflexivity]. simpl.
  apply Nat.eqb_eq in E. rewrite n_m_ops_heterodyne in E.
  rewrite n_m_ops_heterodyne.
  replace (length sc_ops) with 0 by lia. reflexivity.
Qed.

Lemma broadcast_scalar (sc_ops : list Op) (het : bool) (w : R) :
  broadcast sc_ops het (dW_Scalar w)
  = repeat (Some w) (n_m_ops sc_ops het).
Proof. unfold broadcast. apply broadcast_repeat. reflexivity. Qed.

Lemma broadcast_none (sc_ops : list Op) (het : bool) :
  broadcast sc_ops het dW_None = repeat None (n_m_ops sc_ops het).
Proof. unfold broadcast. apply broadcast_repeat. reflexivity. Qed.

(** The constructor once the two type checks have passed and measurements
    are stored. *)
Lemma init_store (v : variant) (h : Op) (sc_ops : list Op)
  (o : SolverOptions) (m_ops_ : list Op) :
  forallb isoper sc_ops = true ->
  store_measurement o = true ->
  __init__ v (H_op h) (sc_list sc_ops) o m_ops_
  = let c := choose_m_ops sc_ops m_ops_ (heterodyne o) (dW_factor o) in
    let dWl := broadcast sc_ops (heterodyne o) (snd c) in
    if negb (Nat.eqb (length dWl) (n_m_ops sc_ops (heterodyne o)))
    then Raise ValueError
    else Ok (mk (_prep_system v h sc_ops (heterodyne o)) o (fst c) dWl).
Proof.
  intros Hops Hstore. unfold __init__. simpl as_list.
  rewrite (checks_pass sc_ops Hops), Hstore.
  destruct (choose_m_ops sc_ops m_ops_ (heterodyne o) (dW_factor o)).
  reflexivity.
Qed.

(** The chosen measurement operators are one per channel. *)
Lemma choose_m_ops_length (sc_ops m_ops_ : list Op) (het : bool)
  (dW : dW_value) :
  length (fst (choose_m_ops sc_ops m_ops_ het dW)) = n_m_ops sc_ops het.
Proof.
  unfold choose_m_ops.
  destruct (Nat.eqb (length m_ops_) (n_m_ops sc_ops het)) eqn:Em.
  - apply Nat.eqb_eq in Em. exact Em.
  - destruct het; simpl fst.
    + rewrite flat_map_pair_length, n_m_ops_heterodyne. reflexivity.
    + rewrite length_map, n_m_ops_homodyne. reflexivity.
Qed.

(** [NoiseWeights] and [MeasurementOperators] of a constructed solver have
    the same length. *)
Lemma init_lengths (v : variant) (H_ : H_arg Op) (sc : sc_arg Op)
  (o : SolverOptions) (m_ops_ : list Op) (s : Solver.t Op) :
  __init__ v H_ sc o m_ops_ = Ok s ->
  length (dW_factors s) = length (m_ops s).
Proof.
  unfold __init__. destruct H_ as [h|]; [|discriminate].
  destruct (existsb _ _); [discriminate|].
  destruct (store_measurement o); [|intro E; injection E as <-; reflexivity].
  pose proof (choose_m_ops_length (as_list sc) m_ops_ (heterodyne o)
                (dW_factor o)) as Hlen.
  destruct (choose_m_ops _ _ _ _) as [ms dW]. simpl in Hlen.
  destruct (Nat.eqb _ _) eqn:El; [|discriminate]. simpl.
  intro E; injection E as <-. simpl. apply Nat.eqb_eq in El. congruence.
Qed.

End Init.

End SolverFacts.

(** ** The resolved measurement configuration *)

Module Construction.
Import Qobj Options Solver SolverFacts.

Section Init.
Context {Op : Type} `{Operators Op}.

(** C2.  Heterodyne detection, measurements stored, no [dW_factor], and
    [m_ops] either not passed or of a length other than 2k: the solver is
    constructed with 2k measurement operators, [op + op.dag()] at position
    2i and [-1j * (op - op.dag())] at position 2i + 1 for the i-th collapse
    operator, and 2k weights all equal to [2**0.5]. *)
Theorem init_heterodyne_default
  (v : variant) (h : Op) (sc_ops m_ops_ : list Op) :
  forallb isoper sc_ops = true ->
  m_ops_ = [] \/ length m_ops_ <> 2 * length sc_ops ->
  exists s : Solver.t Op,
    __init__ v (H_op h) (sc_list sc_ops) (mkOptions true true dW_None) m_ops_
    = Ok s
    /\ length (m_ops s) = 2 * length sc_ops
    /\ (forall i op,
           nth_error sc_ops i = Some op ->
           nth_error (m_ops s) (2 * i) = Some (op_add op (dag op))
           /\ nth_error (m_ops s) (2 * i + 1)
              = Some (mul_neg_1j (op_sub op (dag op))))
    /\ dW_factors s = repeat (Some (sqrt 2)) (2 * length sc_ops).
Proof.
  intros Hops Hm. rewrite init_store by (exact Hops || reflexivity).
  cbn [heterodyne dW_factor]. unfold choose_m_ops.
  destruct (Nat.eqb (length m_ops_) (n_m_ops sc_ops true)) eqn:Em.
  - apply Nat.eqb_eq in Em. rewrite n_m_ops_heterodyne in Em.
    destruct Hm as [-> | Hm]; [|contradiction].
    destruct sc_ops as [|c l]; [|discriminate Em].
    eexists. split; [reflexivity|]. split; [reflexivity|].
    split; [|reflexivity]. intros [|i] op Hop; discriminate Hop.
  - cbn [fst snd py_or truthy]. rewrite broadcast_scalar, repeat_length.
    rewrite Nat.eqb_refl. cbn [negb].
    eexists. split; [reflexivity|]. cbn [m_ops dW_factors].
    split; [apply flat_map_pair_length|].
    split; [|rewrite n_m_ops_heterodyne; reflexivity].
    intros i op Hop.
    exact (flat_map_pair_nth (fun op => op_add op (dag op))
             (fun op => mul_neg_1j (op_sub op (dag op))) sc_ops i op Hop).
Qed.

(** C3.  Homodyne detection, measurements stored, no [dW_factor], and
    [m_ops] either not passed or of a length other than k: the solver is
    constructed with the k measurement operators [op + op.dag()], in the
    order of the collapse operators, and k weights all equal to 1. *)
Theorem init_homodyne_default
  (v : variant) (h : Op) (sc_ops m_ops_ : list Op) :
  forallb isoper sc_ops = true ->
  m_ops_ = [] \/ length m_ops_ <> length sc_ops ->
  exists s : Solver.t Op,
    __init__ v (H_op h) (sc_list sc_ops) (mkOptions false true dW_None) m_ops_
    = Ok s
    /\ length (m_ops s) = length sc_ops
    /\ (forall i op,
           nth_error sc_ops i = Some op ->
           nth_error (m_ops s) i = Some (op_add op (dag op)))
    /\ dW_factors s = repeat (Some 1%R) (length sc_ops).
Proof.
  intros Hops Hm. rewrite init_store by (exact Hops || reflexivity).
  cbn [heterodyne dW_factor]. unfold choose_m_ops.
  destruct (Nat.eqb (length m_ops_) (n_m_ops sc_ops false)) eqn:Em.
  - apply Nat.eqb_eq in Em. rewrite n_m_ops_homodyne in Em.
    destruct Hm as [-> | Hm]; [|contradiction].
    destruct sc_ops as [|c l]; [|discriminate Em].
    eexists. split; [reflexivity|]. split; [reflexivity|].
    split; [|reflexivity]. intros [|i] op Hop; discriminate Hop.
  - cbn [fst snd py_or truthy]. rewrite broadcast_scalar, repeat_length.
    rewrite Nat.eqb_refl. cbn [negb].
    eexists. split; [reflexivity|]. cbn [m_ops dW_factors].
    split; [apply length_map|].
    split; [|rewrite n_m_ops_homodyne; reflexivity].
    intros i op Hop. rewrite nth_error_map, Hop. reflexivity.
Qed.

(** C5.  Heterodyne detection, measurements stored and a [dW_factor]
    sequence with one entry per collapse operator: the solver is
    constructed with 2k weights, entry i of the sequence at positions 2i
    and 2i + 1. *)
Theorem init_heterodyne_sequence
  (v : variant) (h : Op) (sc_ops m_ops_ : list Op) (l : list R) :
  forallb isoper sc_ops = true ->
  length l = length sc_ops ->
  exists s : Solver.t Op,
    __init__ v (H_op h) (sc_list sc_ops) (mkOptions true true (dW_Seq l)) m_ops_
    = Ok s
    /\ length (dW_factors s) = 2 * length sc_ops
    /\ (forall i w,
           nth_error l i = Some w ->
           nth_error (dW_factors s) (2 * i) = Some (Some w)
           /\ nth_error (dW_factors s) (2 * i + 1) = Some (Some w)).
Proof.
  intros Hops Hlen. rewrite init_store by (exact Hops || reflexivity).
  cbn [heterodyne dW_factor].
  assert (Hb : broadcast sc_ops true
                 (snd (choose_m_ops sc_ops m_ops_ true (dW_Seq l)))
               = flat_map (fun i => [i; i]) (map Some l)).
  { destruct l as [|w l'].
    - destruct sc_ops as [|c cs]; [|discriminate Hlen].
      unfold choose_m_ops.
      destruct (Nat.eqb _ _); reflexivity.
    - assert (Hd : snd (choose_m_ops sc_ops m_ops_ true (dW_Seq (w :: l')))
                   = dW_Seq (w :: l')).
      { unfold choose_m_ops. destruct (Nat.eqb _ _); reflexivity. }
      rewrite Hd. unfold broadcast.
      rewrite length_map, Hlen, Nat.eqb_refl. reflexivity. }
  cbv zeta. rewrite Hb, flat_map_pair_length, length_map, Hlen.
  rewrite n_m_ops_heterodyne, Nat.eqb_refl. cbn [negb].
  eexists. split; [reflexivity|]. cbn [dW_factors].
  split; [rewrite flat_map_pair_length, length_map, Hlen; reflexivity|].
  intros i w Hw.
  apply (flat_map_pair_nth (fun x => x) (fun x => x) (map Some l) i (Some w)).
  rewrite nth_error_map, Hw. reflexivity.
Qed.

End Init.

End Construction.

(** ** Validation at construction *)

Module Validation.
Import Qobj Options Solver SolverFacts.

Section Init.
Context {Op : Type} `{Operators Op}.

Lemma super_not_oper (c : Op) : issuper c = true -> isoper c = false.
Proof.
  unfold issuper, isoper. destruct (qtype c); simpl; congruence.
Qed.

Lemma existsb_not_oper (sc_ops : list Op) :
  existsb (fun c_op => negb (isoper c_op)) sc_ops = false ->
  forall c, In c sc_ops -> isoper c = true.
Proof.
  intros Hex c Hin.
  destruct (isoper c) eqn:E; [reflexivity|].
  assert (Ht : existsb (fun c_op => negb (isoper c_op)) sc_ops = true).
  { apply existsb_exists. exists c. rewrite E. auto. }
  congruence.
Qed.

(** The length a non-empty [dW_factor] sequence has after the rules. *)
Lemma broadcast_seq_length (sc_ops : list Op) (het : bool) (l : list R) :
  length (broadcast sc_ops het (dW_Seq l))
  = if Nat.eqb (length l) (length sc_ops) && het
    then 2 * length l else length l.
Proof.
  unfold broadcast. rewrite length_map.
  destruct (Nat.eqb (length l) (length sc_ops) && het).
  - rewrite flat_map_pair_length, length_map. reflexivity.
  - apply length_map.
Qed.

(** Once the type checks have passed and measurements are stored, the
    constructor either raises [ValueError], when the broadcast weights do
    not number [n_m_ops], or returns a solver carrying them. *)
Lemma init_length_cases
  (v : variant) (h : Op) (sc_ops m_ops_ : list Op) (o : SolverOptions) :
  forallb isoper sc_ops = true ->
  store_measurement o = true ->
  let resolved :=
    broadcast sc_ops (heterodyne o)
      (snd (choose_m_ops sc_ops m_ops_ (heterodyne o) (dW_factor o))) in
  (length resolved <> n_m_ops sc_ops (heterodyne o) ->
   __init__ v (H_op h) (sc_list sc_ops) o m_ops_ = Raise ValueError)
  /\ (length resolved = n_m_ops sc_ops (heterodyne o) ->
      exists s : Solver.t Op,
        __init__ v (H_op h) (sc_list sc_ops) o m_ops_ = Ok s
        /\ dW_factors s = resolved).
Proof.
  intros Hops Hstore resolved.
  rewrite (init_store v h sc_ops o m_ops_ Hops Hstore).
  cbv zeta. fold resolved. split; intro Hlen.
  - apply Nat.eqb_neq in Hlen. rewrite Hlen. reflexivity.
  - rewrite Hlen, Nat.eqb_refl. cbn [negb].
    eexists. split; reflexivity.
Qed.

(** A non-empty sequence that is neither one weight per channel nor,
    under heterodyne detection, one per collapse operator, is refused. *)
Lemma init_bad_sequence
  (v : variant) (h : Op) (sc_ops m_ops_ : list Op) (het : bool)
  (w : R) (l : list R) :
  forallb isoper sc_ops = true ->
  length (w :: l) <> n_m_ops sc_ops het ->
  (het = true -> length (w :: l) <> length sc_ops) ->
  __init__ v (H_op h) (sc_list sc_ops) (mkOptions het true (dW_Seq (w :: l)))
       m_ops_
  = Raise ValueError.
Proof.
  intros Hops Hn Hk.
  apply (init_length_cases v h sc_ops m_ops_
           (mkOptions het true (dW_Seq (w :: l))) Hops eq_refl).
  cbn [heterodyne dW_factor].
  assert (Hd : snd (choose_m_ops sc_ops m_ops_ het (dW_Seq (w :: l)))
               = dW_Seq (w :: l)).
  { unfold choose_m_ops. destruct (Nat.eqb _ _); [reflexivity|].
    destruct het; reflexivity. }
  rewrite Hd, broadcast_seq_length.
  destruct (Nat.eqb (length (w :: l)) (length sc_ops)) eqn:E;
    [|exact Hn].
  destruct het; [|exact Hn].
  apply Nat.eqb_eq in E. exfalso. apply Hk; [reflexivity | exact E].
Qed.

(** Filling in the default leaves a sequence only where one was given. *)
Lemma choose_m_ops_seq (sc_ops m_ops_ : list Op) (het : bool)
  (dW : dW_value) (l : list R) :
  snd (choose_m_ops sc_ops m_ops_ het dW) = dW_Seq l -> dW = dW_Seq l.
Proof.
  unfold choose_m_ops, py_or.
  destruct (Nat.eqb _ _); [intro E; exact E|].
  destruct het; cbn [snd]; destruct (truthy dW);
    intro E; (exact E || discriminate E).
Qed.

(** Weights whose number is wrong after the rules come from a sequence
    that is neither one weight per channel nor, under heterodyne
    detection, one per collapse operator. *)
Lemma bad_length_cause (sc_ops m_ops_ : list Op) (het : bool)
  (dW : dW_value) :
  length (broadcast sc_ops het (snd (choose_m_ops sc_ops m_ops_ het dW)))
  <> n_m_ops sc_ops het ->
  exists l, dW = dW_Seq l
            /\ length l <> n_m_ops sc_ops het
            /\ (het = true -> length l <> length sc_ops).
Proof.
  intro Hbad.
  destruct (snd (choose_m_ops sc_ops m_ops_ het dW)) as [|w|l] eqn:Hd.
  - rewrite broadcast_none, repeat_length in Hbad. contradiction.
  - rewrite broadcast_scalar, repeat_length in Hbad. contradiction.
  - exists l. split; [exact (choose_m_ops_seq _ _ _ _ _ Hd)|].
    rewrite broadcast_seq_length in Hbad.
    destruct (Nat.eqb (length l) (length sc_ops)) eqn:E.
    + apply Nat.eqb_eq in E. destruct het; cbn [andb] in Hbad.
      * rewrite n_m_ops_heterodyne in Hbad. lia.
      * split; [exact Hbad | discriminate].
    + apply Nat.eqb_neq in E. cbn [andb] in Hbad.
      split; [exact Hbad | intros _; exact E].
Qed.

(** C6, amended.  With [store_measurement] enabled and the type checks
    passed: a non-empty [dW_factor] sequence whose length is neither
    [n_m_ops] nor, under heterodyne detection, [len(sc_ops)] makes the
    constructor raise [ValueError], so that no solver is returned; whatever
    the constructor raises is a [ValueError] caused by a sequence of such a
    length; and a solver it returns has [n_m_ops] weights and [n_m_ops]
    measurement operators. *)
Theorem init_dW_length_check
  (v : variant) (h : Op) (sc_ops m_ops_ : list Op) (o : SolverOptions) :
  forallb isoper sc_ops = true ->
  store_measurement o = true ->
  let n := n_m_ops sc_ops (heterodyne o) in
  let built := __init__ v (H_op h) (sc_list sc_ops) o m_ops_ in
  (forall w l,
      dW_factor o = dW_Seq (w :: l) ->
      length (w :: l) <> n ->
      (heterodyne o = true -> length (w :: l) <> length sc_ops) ->
      built = Raise ValueError)
  /\ (forall e,
         built = Raise e ->
         e = ValueError
         /\ exists l, dW_factor o = dW_Seq l
                      /\ length l <> n
                      /\ (heterodyne o = true -> length l <> length sc_ops))
  /\ (forall s : Solver.t Op,
         built = Ok s ->
         length (dW_factors s) = n /\ length (m_ops s) = n).
Proof.
  intros Hops Hstore n built.
  destruct (init_length_cases v h sc_ops m_ops_ o Hops Hstore)
    as [Hbad Hgood].
  fold built in Hbad, Hgood. fold n in Hbad, Hgood.
  split; [|split].
  - intros w l HdW Hn Hk. unfold built.
    destruct o as [het store dW]. cbn in Hstore, HdW, Hn, Hk.
    subst store dW. apply init_bad_sequence; assumption.
  - intros e He.
    destruct (Nat.eq_dec
                (length (broadcast sc_ops (heterodyne o)
                           (snd (choose_m_ops sc_ops m_ops_ (heterodyne o)
                                   (dW_factor o))))) n)
      as [Heq | Hneq].
    + destruct (Hgood Heq) as [s0 [Hs0 _]]. congruence.
    + rewrite (Hbad Hneq) in He. injection He as <-.
      split; [reflexivity|].
      exact (bad_length_cause sc_ops m_ops_ (heterodyne o) (dW_factor o)
               Hneq).
  - intros s Hs.
    assert (Hw : length (dW_factors s) = n).
    { destruct (Nat.eq_dec
                  (length (broadcast sc_ops (heterodyne o)
                             (snd (choose_m_ops sc_ops m_ops_ (heterodyne o)
                                     (dW_factor o))))) n)
        as [Heq | Hneq].
      - destruct (Hgood Heq) as [s0 [Hs0 Hw0]].
        assert (s0 = s) by congruence. subst s0. rewrite Hw0. exact Heq.
      - rewrite (Hbad Hneq) in Hs. discriminate Hs. }
    split; [exact Hw|].
    rewrite <- (init_lengths v (H_op h) (sc_list sc_ops) o m_ops_ s Hs).
    exact Hw.
Qed.

(** C8.  In both solver classes the constructor raises [TypeError] when
    [H] is not an operator object or when some stochastic collapse operator
    is a superoperator; a solver that has been constructed was given an
    operator object for [H] and plain operators only, so nothing is left to
    check when a trajectory runs. *)
Theorem init_type_checks
  (v : variant) (H_ : H_arg Op) (sc : sc_arg Op) (o : SolverOptions)
  (m_ops_ : list Op) :
  ((H_ = H_other \/ exists c, In c (as_list sc) /\ issuper c = true) ->
   __init__ v H_ sc o m_ops_ = Raise TypeError)
  /\ (forall s : Solver.t Op,
         __init__ v H_ sc o m_ops_ = Ok s ->
         (exists h, H_ = H_op h)
         /\ forall c, In c (as_list sc) ->
                      isoper c = true /\ issuper c = false).
Proof.
  split.
  - intros [-> | [c [Hin Hsuper]]]; [reflexivity|].
    unfold __init__. destruct H_ as [h|]; [|reflexivity].
    assert (Hex : existsb (fun c_op => negb (isoper c_op)) (as_list sc)
                  = true).
    { apply existsb_exists. exists c. split; [exact Hin|].
      rewrite (super_not_oper c Hsuper). reflexivity. }
    rewrite Hex. reflexivity.
  - intros s Hinit. unfold __init__ in Hinit.
    destruct H_ as [h|]; [|discriminate Hinit].
    split; [exists h; reflexivity|].
    destruct (existsb (fun c_op => negb (isoper c_op)) (as_list sc)) eqn:Hex;
      [discriminate Hinit|].
    intros c Hin. pose proof (existsb_not_oper _ Hex c Hin) as Hc.
    split; [exact Hc|].
    destruct (issuper c) eqn:Hs; [|reflexivity].
    rewrite (super_not_oper c Hs) in Hc. discriminate Hc.
Qed.

(** C10.  With [store_measurement] disabled the constructed solver has no
    measurement operators and no weights, whatever [heterodyne], [m_ops]
    and [dW_factor] are: the branch that could raise [ValueError] is not
    taken. *)
Theorem init_without_store_measurement
  (v : variant) (h : Op) (sc : sc_arg Op) (het : bool) (dW : dW_value)
  (m_ops_ : list Op) :
  forallb isoper (as_list sc) = true ->
  __init__ v (H_op h) sc (mkOptions het false dW) m_ops_
  = Ok (mk (_prep_system v h (as_list sc) het) (mkOptions het false dW)
           [] []).
Proof.
  intro Hops. unfold __init__. rewrite (checks_pass _ Hops). reflexivity.
Qed.

(** A scalar [dW_factor] that Python holds true, or one that comes with a
    full list of [m_ops], is repeated once per channel. *)
Lemma init_scalar
  (v : variant) (h : Op) (sc_ops m_ops_ : list Op) (het : bool) (w : R) :
  forallb isoper sc_ops = true ->
  w <> 0%R \/ length m_ops_ = n_m_ops sc_ops het ->
  exists s : Solver.t Op,
    __init__ v (H_op h) (sc_list sc_ops)
             (mkOptions het true (dW_Scalar w)) m_ops_
    = Ok s
    /\ dW_factors s = repeat (Some w) (n_m_ops sc_ops het).
Proof.
  intros Hops Hw.
  destruct (init_length_cases v h sc_ops m_ops_
              (mkOptions het true (dW_Scalar w)) Hops eq_refl)
    as [_ Hgood].
  cbn [heterodyne dW_factor] in Hgood.
  assert (Hd : snd (choose_m_ops sc_ops m_ops_ het (dW_Scalar w))
               = dW_Scalar w).
  { unfold choose_m_ops.
    destruct (Nat.eqb (length m_ops_) (n_m_ops sc_ops het)) eqn:E;
      [reflexivity|].
    destruct Hw as [Hw | Hw]; [|apply Nat.eqb_neq in E; contradiction].
    unfold py_or, truthy.
    destruct het; destruct (Req_dec_T w 0); try contradiction; reflexivity. }
  rewrite Hd, broadcast_scalar in Hgood. apply Hgood. apply repeat_length.
Qed.

(** An absent [dW_factor] next to a full list of [m_ops] passes the length
    check as a list of [None]. *)
Lemma init_absent_with_m_ops
  (v : variant) (h : Op) (sc_ops m_ops_ : list Op) (het : bool) :
  forallb isoper sc_ops = true ->
  length m_ops_ = n_m_ops sc_ops het ->
  __init__ v (H_op h) (sc_list sc_ops) (mkOptions het true dW_None) m_ops_
  = Ok (mk (_prep_system v h sc_ops het) (mkOptions het true dW_None)
           m_ops_ (repeat None (n_m_ops sc_ops het))).
Proof.
  intros Hops Hm. rewrite init_store by (exact Hops || reflexivity).
  cbn [heterodyne dW_factor]. unfold choose_m_ops.
  apply Nat.eqb_eq in Hm. rewrite Hm. cbn [fst snd].
  rewrite broadcast_none, repeat_length, Nat.eqb_refl. reflexivity.
Qed.

(** The scalar 0 without a full list of [m_ops] is taken for an absent
    [dW_factor] and replaced by the default of the detection scheme. *)
Lemma init_scalar_zero
  (v : variant) (h : Op) (sc_ops m_ops_ : list Op) (het : bool) :
  forallb isoper sc_ops = true ->
  length m_ops_ <> n_m_ops sc_ops het ->
  exists s : Solver.t Op,
    __init__ v (H_op h) (sc_list sc_ops)
             (mkOptions het true (dW_Scalar 0)) m_ops_
    = Ok s
    /\ dW_factors s
       = repeat (Some (if het then sqrt 2 else 1%R)) (n_m_ops sc_ops het).
Proof.
  intros Hops Hm.
  destruct (init_length_cases v h sc_ops m_ops_
              (mkOptions het true (dW_Scalar 0)) Hops eq_refl)
    as [_ Hgood].
  cbn [heterodyne dW_factor] in Hgood.
  assert (Hd : snd (choose_m_ops sc_ops m_ops_ het (dW_Scalar 0))
               = dW_Scalar (if het then sqrt 2 else 1%R)).
  { unfold choose_m_ops. apply Nat.eqb_neq in Hm. rewrite Hm.
    unfold py_or, truthy.
    destruct het; destruct (Req_dec_T 0 0); try contradiction; reflexivity. }
  rewrite Hd, broadcast_scalar in Hgood. apply Hgood. apply repeat_length.
Qed.

End Init.

End Validation.

(** ** Reduction into the ensemble *)

Module EnsembleFacts.
Import Options StochasticResult.

Lemma array_dims (nested : list (list R)) (arr : Numpy.ndarray) :
  Numpy.array nested = Ok arr -> length (Numpy.shape arr) <= 2.
Proof.
  unfold Numpy.array. destruct nested as [|r rs].
  - intro E; injection E as <-. simpl. lia.
  - destruct (forallb _ _); [|discriminate].
    intro E; injection E as <-. simpl. lia.
Qed.

(** Whatever [heterodyne] is, a reduction that returns has appended the
    array [np.array] built from the nested list, with the shape
    [np.array] gave it: one or two dimensions, never three. *)
Lemma reduce_expect_appends (self self' : t) (nested : list (list R))
  (arr : Numpy.ndarray) :
  _reduce_expect self nested = Ok (self', arr) ->
  Numpy.array nested = Ok arr
  /\ measurement self' = measurement self ++ [arr]
  /\ length (Numpy.shape arr) <= 2.
Proof.
  unfold _reduce_expect. intro Hred.
  apply bind_ok in Hred. destruct Hred as [arr0 [Harr Hred]].
  apply bind_ok in Hred. destruct Hred as [unused [_ Hred]].
  injection Hred as <- <-.
  split; [exact Harr|]. split; [reflexivity|].
  exact (array_dims nested arr0 Harr).
Qed.

(** The processor registered for the measurements goes by a name that is
    not among the methods the class defines: unless a base class provides
    it, [_post_init] raises [AttributeError] when measurements are
    stored. *)
Lemma post_init_processor (o : SolverOptions)
  (base inherited : list string) :
  store_measurement o = true ->
  ~ In "_reduce_measurements"%string defined_methods
  /\ (~ In "_reduce_measurements"%string inherited ->
      _post_init o base inherited = Raise AttributeError)
  /\ (In "_reduce_measurements"%string inherited ->
      _post_init o base inherited
      = Ok (mk o [] (base ++ ["_reduce_measurements"%string]))).
Proof.
  intro Hstore. unfold _post_init. rewrite Hstore, existsb_app.
  assert (Hown : existsb (String.eqb "_reduce_measurements") defined_methods
                 = false) by reflexivity.
  rewrite Hown. cbn [orb].
  split; [intros [E | [E | []]]; discriminate E|].
  destruct (existsb (String.eqb "_reduce_measurements") inherited) eqn:Hex.
  - split; [|reflexivity]. intro Hnot. exfalso. apply Hnot.
    apply existsb_exists in Hex. destruct Hex as [x [Hin Hx]].
    apply String.eqb_eq in Hx. subst x. exact Hin.
  - split; [reflexivity|]. intro Hin.
    assert (Ht : existsb (String.eqb "_reduce_measurements") inherited
                 = true).
    { apply existsb_exists. eexists. split; [exact Hin|].
      apply String.eqb_refl. }
    congruence.
Qed.

(** C7, at a trajectory with one collapse operator, two quadrature
    channels and two steps: the array appended to the ensemble has shape
    (2, 2); the grouped array of shape (1, 2, 2) is what [reshape] returns,
    and it is not kept. *)
Theorem reduce_expect_heterodyne_shape :
  let self :=
    mk (mkOptions true true dW_None) [] ["_reduce_measurements"%string] in
  let nested := [[1%R; 2%R]; [3%R; 4%R]] in
  let arr := Numpy.mkNd [2; 2] [1%R; 2%R; 3%R; 4%R] in
  _reduce_expect self nested
  = Ok (mk (options self) [arr] (processors self), arr)
  /\ Numpy.reshape_infer arr 2 (Numpy.last_dim arr)
     = Ok (Numpy.mkNd [1; 2; 2] (Numpy.data arr))
  /\ Numpy.shape arr <> [1; 2; 2].
Proof.
  cbv zeta. split; [reflexivity|]. split; [reflexivity|].
  simpl. discriminate.
Qed.

End EnsembleFacts.

(** ** The claims on the concrete instance *)

Module Instances.
Import Qobj Options Solver Toy.

(** C4, at the scalar 0 with one collapse operator, homodyne detection and
    no [m_ops]: the resolved weight is the default 1, not the 0 that was
    passed. *)
Theorem init_scalar_zero_replaced :
  exists s : Solver.t term,
    __init__ SSESolver (H_op m) (sc_list [a])
         (mkOptions false true (dW_Scalar 0)) []
    = Ok s
    /\ dW_factors s = [Some 1%R]
    /\ dW_factors s <> repeat (Some 0%R) (n_m_ops [a] false).
Proof.
  destruct (Validation.init_scalar_zero SSESolver m [a] [] false)
    as [s [Hs Hw]]; [reflexivity | simpl; discriminate |].
  exists s. split; [exact Hs|]. simpl in Hw. split; [exact Hw|].
  rewrite Hw. simpl. intro E. injection E as E. lra.
Qed.

(** C6 as stated fails: with [store_measurement] disabled a [dW_factor]
    of two entries for one homodyne channel is accepted. *)
Lemma init_dW_length_unchecked :
  ~ (forall (v : variant) (h : term) (sc_ops m_ops_ : list term)
            (o : SolverOptions) (w : R) (l : list R),
        forallb isoper sc_ops = true ->
        dW_factor o = dW_Seq (w :: l) ->
        length (w :: l) <> n_m_ops sc_ops (heterodyne o) ->
        (heterodyne o = true -> length (w :: l) <> length sc_ops) ->
        __init__ v (H_op h) (sc_list sc_ops) o m_ops_ = Raise ValueError).
Proof.
  intro Hall.
  specialize (Hall SSESolver m [a] []
                (mkOptions false false (dW_Seq [1%R; 2%R])) 1%R [2%R]).
  assert (Hinit : __init__ SSESolver (H_op m) (sc_list [a])
                    (mkOptions false false (dW_Seq [1%R; 2%R])) []
                  = Ok (mk (StochasticClosedSystem m [a] false)
                           (mkOptions false false (dW_Seq [1%R; 2%R]))
                           [] []))
    by reflexivity.
  rewrite Hinit in Hall.
  assert (Habs : @Ok (Solver.t term)
                   (mk (StochasticClosedSystem m [a] false)
                      (mkOptions false false (dW_Seq [1%R; 2%R])) [] [])
                 = Raise ValueError).
  { apply Hall; [reflexivity | reflexivity | simpl; discriminate |].
    discriminate. }
  discriminate Habs.
Qed.

Lemma init_heterodyne_default_witness :
  forallb isoper [a; b] = true
  /\ exists s : Solver.t term,
       __init__ SMESolver (H_op m) (sc_list [a; b])
            (mkOptions true true dW_None) [m]
       = Ok s
       /\ nth_error (m_ops s) 2 = Some (Add b (Dag b))
       /\ nth_error (m_ops s) 3 = Some (MulNeg1j (Sub b (Dag b)))
       /\ dW_factors s = repeat (Some (sqrt 2)) 4.
Proof.
  split; [reflexivity|].
  destruct (Construction.init_heterodyne_default SMESolver m [a; b] [m])
    as [s [Hs [_ [Hnth Hw]]]].
  - reflexivity.
  - right. simpl. lia.
  - exists s. split; [exact Hs|].
    destruct (Hnth 1 b eq_refl) as [H2 H3].
    split; [exact H2|]. split; [exact H3 | exact Hw].
Defined.

Lemma init_homodyne_default_witness :
  forallb isoper [a; b] = true
  /\ exists s : Solver.t term,
       __init__ SSESolver (H_op m) (sc_list [a; b])
            (mkOptions false true dW_None) []
       = Ok s
       /\ nth_error (m_ops s) 1 = Some (Add b (Dag b))
       /\ dW_factors s = [Some 1%R; Some 1%R].
Proof.
  split; [reflexivity|].
  destruct (Construction.init_homodyne_default SSESolver m [a; b] [])
    as [s [Hs [_ [Hnth Hw]]]].
  - reflexivity.
  - left. reflexivity.
  - exists s. split; [exact Hs|].
    split; [exact (Hnth 1 b eq_refl) | exact Hw].
Defined.

Lemma init_heterodyne_sequence_witness :
  length [3%R; 5%R] = length [a; b]
  /\ exists s : Solver.t term,
       __init__ SSESolver (H_op m) (sc_list [a; b])
            (mkOptions true true (dW_Seq [3%R; 5%R])) []
       = Ok s
       /\ length (dW_factors s) = 4
       /\ nth_error (dW_factors s) 2 = Some (Some 5%R)
       /\ nth_error (dW_factors s) 3 = Some (Some 5%R).
Proof.
  split; [reflexivity|].
  destruct (Construction.init_heterodyne_sequence SSESolver m [a; b] []
              [3%R; 5%R])
    as [s [Hs [Hlen Hnth]]].
  - reflexivity.
  - reflexivity.
  - exists s. split; [exact Hs|]. split; [exact Hlen|].
    exact (Hnth 1 5%R eq_refl).
Defined.

Lemma init_dW_length_check_witness :
  __init__ SSESolver (H_op m) (sc_list [a])
       (mkOptions false true (dW_Seq [1%R; 2%R])) []
  = Raise ValueError
  /\ forall s0 : Solver.t term,
       __init__ SSESolver (H_op m) (sc_list [a])
            (mkOptions false true (dW_Seq [2%R])) []
       = Ok s0 ->
       length (dW_factors s0) = 1.
Proof.
  destruct (Validation.init_dW_length_check SSESolver m [a] []
              (mkOptions false true (dW_Seq [1%R; 2%R])))
    as [Hbad _]; [reflexivity | reflexivity |].
  destruct (Validation.init_dW_length_check SSESolver m [a] []
              (mkOptions false true (dW_Seq [2%R])))
    as [_ [_ Hok]]; [reflexivity | reflexivity |].
  split.
  - apply (Hbad 1%R [2%R]).
    + reflexivity.
    + simpl. discriminate.
    + discriminate.
  - intros s0 Hs0. exact (proj1 (Hok s0 Hs0)).
Defined.

Lemma init_type_checks_witness :
  __init__ SMESolver (@H_other term) (sc_list [a])
       (mkOptions false false dW_None) []
  = Raise TypeError
  /\ __init__ SSESolver (H_op m) (sc_list [a; sup])
          (mkOptions false false dW_None) []
     = Raise TypeError.
Proof.
  split.
  - apply (Validation.init_type_checks SMESolver H_other (sc_list [a])
             (mkOptions false false dW_None) []).
    left. reflexivity.
  - apply (Validation.init_type_checks SSESolver (H_op m) (sc_list [a; sup])
             (mkOptions false false dW_None) []).
    right. exists sup. split; [simpl; auto | reflexivity].
Defined.

Lemma init_without_store_measurement_witness :
  __init__ SSESolver (H_op m) (sc_list [a])
       (mkOptions false true (dW_Seq [1%R; 2%R])) [m; m]
  = Raise ValueError
  /\ __init__ SSESolver (H_op m) (sc_list [a])
          (mkOptions false false (dW_Seq [1%R; 2%R])) [m; m]
     = Ok (mk (StochasticClosedSystem m [a] false)
              (mkOptions false false (dW_Seq [1%R; 2%R])) [] []).
Proof.
  split; [reflexivity|].
  apply (Validation.init_without_store_measurement SSESolver m
           (sc_list [a]) false (dW_Seq [1%R; 2%R]) [m; m]).
  reflexivity.
Defined.

End Instances.

(** * Further properties of the module *)

(** ** [StochasticTrajResult]: what [add] does to a result *)

Module TrajMore.
Import Qobj Options TrajResult.

Lemma append_measures_extends (ms : list (list R)) :
  forall (es ns : list R) (fs : list (option R)) (ms' : list (list R)),
    append_measures ms es ns fs = Ok ms' ->
    length ms' = length ms
    /\ forall i chan,
         nth_error ms i = Some chan ->
         exists tail,
           nth_error ms' i = Some (chan ++ tail) /\ length tail <= 1.
Proof.
  assert (Hsame : forall l : list (list R),
             length l = length l
             /\ forall i chan,
                  nth_error l i = Some chan ->
                  exists tail,
                    nth_error l i = Some (chan ++ tail) /\ length tail <= 1).
  { intro l. split; [reflexivity|]. intros i chan Hc. exists [].
    rewrite app_nil_r. split; [exact Hc | apply Nat.le_0_l]. }
  induction ms as [|c ms IH]; intros es ns fs ms' Happ.
  - simpl in Happ. injection Happ as <-. apply Hsame.
  - destruct es as [|e es]; [injection Happ as <-; apply Hsame|].
    destruct ns as [|n ns]; [injection Happ as <-; apply Hsame|].
    destruct fs as [|f fs]; [injection Happ as <-; apply Hsame|].
    simpl in Happ. destruct f as [w|]; [|discriminate Happ].
    apply bind_ok in Happ. destruct Happ as [rest [Hrest Heq]].
    injection Heq as <-. destruct (IH es ns fs rest Hrest) as [Hlen Hpre].
    split; [simpl; congruence|].
    intros [|i] chan Hc.
    + injection Hc as <-. eexists. split; [reflexivity | apply le_n].
    + exact (Hpre i chan Hc).
Qed.

Lemma append_measures_rest (ms : list (list R)) :
  forall (es ns : list R) (fs : list (option R)) (ms' : list (list R)),
    append_measures ms es ns fs = Ok ms' ->
    forall i,
      nth_error es i = None \/ nth_error ns i = None
      \/ nth_error fs i = None ->
      nth_error ms' i = nth_error ms i.
Proof.
  induction ms as [|c ms IH]; intros es ns fs ms' Happ i Hnone.
  - simpl in Happ. injection Happ as <-. reflexivity.
  - destruct es as [|e es]; [injection Happ as <-; reflexivity|].
    destruct ns as [|n ns]; [injection Happ as <-; reflexivity|].
    destruct fs as [|f fs]; [injection Happ as <-; reflexivity|].
    simpl in Happ. destruct f as [w|]; [|discriminate Happ].
    apply bind_ok in Happ. destruct Happ as [rest [Hrest Heq]].
    injection Heq as <-. destruct i as [|i].
    + destruct Hnone as [E | [E | E]]; discriminate E.
    + exact (IH es ns fs rest Hrest i Hnone).
Qed.

Section Add.
Context {Op State EOps : Type} `{Expectation Op State}.

(** X1.  A call of [add] that returns has appended the time and the state,
    appended the noise if there was one, kept the operators, weights and
    options, kept the number of measurement channels, and left every
    channel as it was or with one more entry at its end. *)
Theorem add_appends (r r' : t Op State EOps) (tm : R) (st : State)
  (nz : option Numpy.array2) :
  add r tm st nz = Ok r' ->
  times r' = times r ++ [tm]
  /\ states r' = states r ++ [st]
  /\ noise r' = noise r ++ match nz with Some a => [a] | None => [] end
  /\ m_ops r' = m_ops r
  /\ dW_factor r' = dW_factor r
  /\ options r' = options r
  /\ length (measurements r') = length (measurements r)
  /\ forall i chan,
       nth_error (measurements r) i = Some chan ->
       exists tail,
         nth_error (measurements r') i = Some (chan ++ tail)
         /\ length tail <= 1.
Proof.
  assert (Hsame : forall l : list (list R),
             forall i chan,
               nth_error l i = Some chan ->
               exists tail,
                 nth_error l i = Some (chan ++ tail) /\ length tail <= 1).
  { intros l i chan Hc. exists []. rewrite app_nil_r.
    split; [exact Hc | apply Nat.le_0_l]. }
  unfold add. destruct nz as [a|].
  - TrajFacts.record_fields. unfold Result_add. TrajFacts.record_fields.
    destruct (store_measurement (options r)).
    + intro Hadd.
      apply bind_ok in Hadd. destruct Hadd as [t1 [_ Hadd]].
      apply bind_ok in Hadd. destruct Hadd as [t2 [_ Hadd]].
      unfold _add_measurement in Hadd. TrajFacts.record_fields.
      apply bind_ok in Hadd. destruct Hadd as [ms' [Hms' Hadd]].
      injection Hadd as <-. TrajFacts.record_fields.
      destruct (append_measures_extends _ _ _ _ _ Hms') as [Hlen Hpre].
      repeat (split; [reflexivity|]). split; [exact Hlen | exact Hpre].
    + intro Hadd. injection Hadd as <-. TrajFacts.record_fields.
      repeat (split; [reflexivity|]). apply Hsame.
  - intro Hadd. injection Hadd as <-. unfold Result_add.
    TrajFacts.record_fields. rewrite app_nil_r.
    repeat (split; [reflexivity|]). apply Hsame.
Qed.

(** X2.  With numeric weights [_add_measurement] always returns.  A channel
    that has an operator, a summed noise entry and a weight gets
    [expect + dW * factor] appended; a channel that lacks one of the three
    is left as it is, without an error. *)
Theorem add_measurement_skips (r : t Op State EOps) (ws : list R) (tm : R)
  (st : State) (a : Numpy.array2) :
  dW_factor r = map Some ws ->
  exists r',
    _add_measurement r tm st a = Ok r'
    /\ times r' = times r /\ states r' = states r /\ noise r' = noise r
    /\ length (measurements r') = length (measurements r)
    /\ (forall i chan m_op dW w,
           nth_error (measurements r) i = Some chan ->
           nth_error (m_ops r) i = Some m_op ->
           nth_error (Numpy.sum_axis0 a) i = Some dW ->
           nth_error ws i = Some w ->
           nth_error (measurements r') i
           = Some (chan ++ [(expect m_op tm st + dW * w)%R]))
    /\ (forall i,
           nth_error (m_ops r) i = None
           \/ nth_error (Numpy.sum_axis0 a) i = None
           \/ nth_error ws i = None ->
           nth_error (measurements r') i = nth_error (measurements r) i).
Proof.
  intro Hws. unfold _add_measurement. rewrite Hws.
  destruct (TrajFacts.append_measures_total (measurements r)
              (map (fun m_op => expect m_op tm st) (m_ops r))
              (Numpy.sum_axis0 a) ws)
    as [ms' [Hms' Hlen]].
  rewrite Hms'. cbn [bind]. eexists. split; [reflexivity|].
  TrajFacts.record_fields.
  repeat (split; [reflexivity|]). split; [exact Hlen|]. split.
  - intros i chan m_op dW w Hc Hm Hn Hw.
    apply (TrajFacts.append_measures_entry _ _ _ _ _ Hms' i chan
             (expect m_op tm st) dW w Hc); [|exact Hn | exact Hw].
    rewrite nth_error_map, Hm. reflexivity.
  - intros i Hnone.
    apply (append_measures_rest _ _ _ _ _ Hms' i).
    destruct Hnone as [E | [E | E]].
    + left. rewrite nth_error_map, E. reflexivity.
    + right. left. exact E.
    + right. right. rewrite nth_error_map, E. reflexivity.
Qed.

(** X3.  With numeric weights the one way [add] can fail is [IndexError]:
    it is raised exactly when noise is passed, measurements are stored and
    no earlier point has been recorded, so that [times[-2]] does not
    exist. *)
Theorem add_fails_only_at_first_point (r : t Op State EOps) (ws : list R)
  (tm : R) (st : State) (nz : option Numpy.array2) :
  dW_factor r = map Some ws ->
  forall e,
    add r tm st nz = Raise e
    <-> e = IndexError
        /\ nz <> None
        /\ store_measurement (options r) = true
        /\ times r = [].
Proof.
  intros Hws e. unfold add. destruct nz as [a|].
  - TrajFacts.record_fields. unfold Result_add. TrajFacts.record_fields.
    destruct (store_measurement (options r)) eqn:Hstore.
    + rewrite index_neg_last. cbn [bind].
      destruct (times r) as [|x xs] eqn:Hts.
      * simpl. split.
        -- intro E. injection E as <-.
           split; [reflexivity|]. split; [discriminate|].
           split; reflexivity.
        -- intros [-> _]. reflexivity.
      * assert (Hlast : exists tp j, nth_error (x :: xs) j = Some tp
                                     /\ S j = length (x :: xs)).
        { destruct (nth_error (x :: xs) (length xs)) as [tp|] eqn:E';
            [exists tp, (length xs); auto|].
          apply nth_error_None in E'. simpl in E'. lia. }
        destruct Hlast as [tp [j [Htp Hj]]].
        rewrite (index_neg_before_last _ tm tp j Htp Hj). cbn [bind].
        unfold _add_measurement. TrajFacts.record_fields. rewrite Hws.
        match goal with
        | |- context [append_measures ?ms ?es ?ns (map Some ws)] =>
            destruct (TrajFacts.append_measures_total ms es ns ws)
              as [ms' [-> _]]
        end.
        cbn [bind]. split; [discriminate|].
        intros [_ [_ [_ E]]]. discriminate E.
    + split; [discriminate|]. intros [_ [_ [E _]]]. discriminate E.
  - split; [discriminate|]. intros [_ [E _]]. contradiction.
Qed.

End Add.

End TrajMore.

(** ** [_run_one_traj]: what a run records *)

Module RunMore.
Import Qobj Options Solver RunFacts Integration.

Section Run.
Context {Op State EOps IState Raw Seed Gen : Type}
  `{Expectation Op State} `{Integrator IState Raw State Seed Gen}.

Lemma add_ok_fields (r r' : TrajResult.t Op State EOps) (tm : R)
  (st : State) (nz : option Numpy.array2) :
  TrajResult.add r tm st nz = Ok r' ->
  TrajResult.times r' = TrajResult.times r ++ [tm]
  /\ TrajResult.states r' = TrajResult.states r ++ [st]
  /\ TrajResult.noise r'
     = TrajResult.noise r ++ match nz with Some a => [a] | None => [] end
  /\ TrajResult.m_ops r' = TrajResult.m_ops r
  /\ TrajResult.dW_factor r' = TrajResult.dW_factor r
  /\ TrajResult.options r' = TrajResult.options r.
Proof.
  unfold TrajResult.add. destruct nz as [a|].
  - TrajFacts.record_fields. unfold TrajResult.Result_add.
    TrajFacts.record_fields.
    destruct (store_measurement (TrajResult.options r)).
    + intro Hadd.
      apply bind_ok in Hadd. destruct Hadd as [t1 [_ Hadd]].
      apply bind_ok in Hadd. destruct Hadd as [t2 [_ Hadd]].
      unfold TrajResult._add_measurement in Hadd.
      apply bind_ok in Hadd. destruct Hadd as [ms' [_ Hadd]].
      injection Hadd as <-. TrajFacts.record_fields.
      repeat split; reflexivity.
    + intro Hadd. injection Hadd as <-. TrajFacts.record_fields.
      repeat split; reflexivity.
  - intro Hadd. injection Hadd as <-. unfold TrajResult.Result_add.
    TrajFacts.record_fields. rewrite app_nil_r. repeat split; reflexivity.
Qed.

Lemma steps_trace (ts : list R) :
  forall (ist ist' : IState) (r r' : TrajResult.t Op State EOps),
    steps ist r ts = Ok (ist', r') ->
    ist' = final ist ts
    /\ TrajResult.times r'
       = TrajResult.times r ++ map (fun out => fst (fst out)) (trace ist ts)
    /\ TrajResult.states r'
       = TrajResult.states r
         ++ map (fun out => _restore_state (snd (fst out))) (trace ist ts)
    /\ TrajResult.noise r'
       = TrajResult.noise r ++ reported_noise (trace ist ts)
    /\ TrajResult.m_ops r' = TrajResult.m_ops r
    /\ TrajResult.dW_factor r' = TrajResult.dW_factor r
    /\ TrajResult.options r' = TrajResult.options r.
Proof.
  induction ts as [|tm ts IH]; intros ist ist' r r' Hsteps.
  - simpl in Hsteps. injection Hsteps as <- <-. simpl.
    rewrite !app_nil_r. repeat split; reflexivity.
  - simpl in Hsteps. cbn [trace final].
    destruct (integrate ist tm) as [ist1 [[tm1 raw] nz]].
    apply bind_ok in Hsteps. destruct Hsteps as [r1 [Hadd Hsteps]].
    destruct (add_ok_fields _ _ _ _ _ Hadd)
      as [Ht [Hs [Hn [Hm [Hw Ho]]]]].
    destruct (IH ist1 ist' r1 r' Hsteps)
      as [Hf [Ht' [Hs' [Hn' [Hm' [Hw' Ho']]]]]].
    cbn [fst snd map]. unfold reported_noise in *. cbn [flat_map snd].
    rewrite Ht', Hs', Hn', Ht, Hs, Hn, <- !app_assoc.
    repeat split; try reflexivity; congruence.
Qed.

(** X4.  A run that returns has recorded the grid's first time and the
    restored initial state, followed by the times and restored states the
    integrator reported, in order: the times are the reported ones, not the
    requested ones.  It has recorded the reported noise arrays, it hands
    back the seed, and it leaves the integrator in the state reached after
    the last step. *)
Theorem run_records_trace (self : Solver.t Op) (ist ist' : IState)
  (seed sd : Seed) (state : Raw) (t0 : R) (rest : list R) (e : EOps)
  (r : TrajResult.t Op State EOps) :
  _run_one_traj self ist seed state (t0 :: rest) e = Ok (ist', (sd, r)) ->
  let ist0 := set_state ist t0 state (_get_generator seed) in
  sd = seed
  /\ ist' = final ist0 rest
  /\ TrajResult.times r
     = t0 :: map (fun out => fst (fst out)) (trace ist0 rest)
  /\ TrajResult.states r
     = _restore_state state
       :: map (fun out => _restore_state (snd (fst out))) (trace ist0 rest)
  /\ TrajResult.noise r = reported_noise (trace ist0 rest)
  /\ TrajResult.m_ops r = m_ops self
  /\ TrajResult.dW_factor r = dW_factors self.
Proof.
  unfold _run_one_traj, TrajResult.add. cbn [bind]. intro Hrun.
  apply bind_ok in Hrun. destruct Hrun as [[ist1 r1] [Hsteps Hrun]].
  injection Hrun as <- <- <-.
  destruct (steps_trace _ _ _ _ _ Hsteps)
    as [Hf [Ht [Hs [Hn [Hm [Hw _]]]]]].
  cbv zeta. rewrite Ht, Hs, Hn, Hm, Hw. repeat split; try reflexivity.
  exact Hf.
Qed.

Lemma steps_app (ts1 ts2 : list R) :
  forall (ist : IState) (r : TrajResult.t Op State EOps),
    steps ist r (ts1 ++ ts2)
    = let* (ist1, r1) := steps ist r ts1 in steps ist1 r1 ts2.
Proof.
  induction ts1 as [|tm ts1 IH]; intros ist r.
  - reflexivity.
  - simpl. destruct (integrate ist tm) as [ist1 [[tm1 raw] nz]].
    destruct (TrajResult.add r tm1 (_restore_state raw) nz) as [r1|ex];
      [|reflexivity].
    cbn [bind]. apply IH.
Qed.

(** X5.  Running over a grid that continues another one is running over
    the shorter grid and then taking the remaining steps from the
    integrator state and the result that run left: later grid points do
    not change what was recorded for earlier ones. *)
Theorem run_extends_grid (self : Solver.t Op) (ist : IState) (seed : Seed)
  (state : Raw) (t0 : R) (ts1 ts2 : list R) (e : EOps) :
  _run_one_traj self ist seed state (t0 :: ts1 ++ ts2) e
  = let* (ist1, (sd, r1)) :=
      _run_one_traj self ist seed state (t0 :: ts1) e in
    let* (ist2, r2) := steps ist1 r1 ts2 in
    Ok (ist2, (sd, r2)).
Proof.
  unfold _run_one_traj. unfold TrajResult.add. cbn [bind].
  rewrite steps_app.
  destruct (steps _ _ ts1) as [[ist1 r1]|ex]; reflexivity.
Qed.

(** With [store_measurement] disabled [add] returns whatever it is given
    and leaves the measurement channels alone. *)
Lemma add_without_store (r : TrajResult.t Op State EOps) (tm : R)
  (st : State) (nz : option Numpy.array2) :
  store_measurement (TrajResult.options r) = false ->
  exists r',
    TrajResult.add r tm st nz = Ok r'
    /\ TrajResult.measurements r' = TrajResult.measurements r
    /\ TrajResult.options r' = TrajResult.options r.
Proof.
  intro Hstore. unfold TrajResult.add. destruct nz as [a|].
  - TrajFacts.record_fields. unfold TrajResult.Result_add.
    TrajFacts.record_fields. rewrite Hstore.
    eexists. repeat split; reflexivity.
  - eexists. repeat split; reflexivity.
Qed.

Lemma steps_keep_measurements (ts : list R) :
  forall (ist ist' : IState) (r r' : TrajResult.t Op State EOps),
    store_measurement (TrajResult.options r) = false ->
    steps ist r ts = Ok (ist', r') ->
    TrajResult.measurements r' = TrajResult.measurements r.
Proof.
  induction ts as [|tm ts IH]; intros ist ist' r r' Hstore Hsteps.
  - simpl in Hsteps. injection Hsteps as _ <-. reflexivity.
  - simpl in Hsteps. destruct (integrate ist tm) as [ist1 [[tm1 raw] nz]].
    destruct (add_without_store r tm1 (_restore_state raw) nz Hstore)
      as [r1 [Hadd [Hms Ho]]].
    rewrite Hadd in Hsteps. cbn [bind] in Hsteps.
    rewrite <- Ho in Hstore.
    rewrite (IH ist1 ist' r1 r' Hstore Hsteps). exact Hms.
Qed.

Lemma trace_length (ts : list R) :
  forall ist : IState, length (trace ist ts) = length ts.
Proof.
  induction ts as [|tm ts IH]; intro ist; simpl;
    [reflexivity | rewrite IH; reflexivity].
Qed.

(** X7.  With [store_measurement] disabled [add] never fails and never
    touches the measurement channels, whatever the weights ([None]
    included) and whatever noise it is passed; so a run that returns has
    one empty list per measurement operator as its record, has one time
    per grid point, and has recorded the reported noise all the same. *)
Theorem run_without_store (self : Solver.t Op) (ist : IState) (seed : Seed)
  (state : Raw) (t0 : R) (rest : list R) (e : EOps) :
  store_measurement (options self) = false ->
  (forall (r : TrajResult.t Op State EOps) tm st nz,
      TrajResult.options r = options self ->
      exists r',
        TrajResult.add r tm st nz = Ok r'
        /\ TrajResult.measurements r' = TrajResult.measurements r)
  /\ (forall ist' sd (r : TrajResult.t Op State EOps),
         _run_one_traj self ist seed state (t0 :: rest) e
         = Ok (ist', (sd, r)) ->
         TrajResult.measurements r = map (fun _ => []) (m_ops self)
         /\ length (TrajResult.times r) = length (t0 :: rest)
         /\ TrajResult.noise r
            = reported_noise
                (trace (set_state ist t0 state (_get_generator seed))
                       rest)).
Proof.
  intro Hstore. split.
  - intros r tm st nz Ho. rewrite <- Ho in Hstore.
    destruct (add_without_store r tm st nz Hstore) as [r' [Hadd [Hms _]]].
    exists r'. split; [exact Hadd | exact Hms].
  - intros ist' sd r Hrun.
    unfold _run_one_traj, TrajResult.add in Hrun. cbn [bind] in Hrun.
    apply bind_ok in Hrun. destruct Hrun as [[ist1 r1] [Hsteps Hrun]].
    injection Hrun as <- <- <-.
    destruct (steps_trace _ _ _ _ _ Hsteps) as [_ [Ht [_ [Hn _]]]].
    change (store_measurement
              (TrajResult.options
                 (TrajResult.Result_add
                    (TrajResult._post_init e (options self) (m_ops self)
                       (dW_factors self))
                    t0 (_restore_state state)))
            = false) in Hstore.
    split; [|split].
    + rewrite (steps_keep_measurements rest _ _ _ _ Hstore Hsteps).
      reflexivity.
    + rewrite Ht. simpl. rewrite length_map, trace_length. reflexivity.
    + rewrite Hn. reflexivity.
Qed.

End Run.

End RunMore.

(** ** [__init__]: what a constructed solver carries *)

Module ConstructionMore.
Import Qobj Options Solver SolverFacts.

Lemma flat_map_pair_map {A B : Type} (f : A -> B) (l : list A) :
  flat_map (fun i => [i; i]) (map f l)
  = map f (flat_map (fun i => [i; i]) l).
Proof.
  induction l as [|x l IH]; simpl; [reflexivity | rewrite IH; reflexivity].
Qed.

Lemma repeat_map {A B : Type} (f : A -> B) (x : A) (n : nat) :
  repeat (f x) n = map f (repeat x n).
Proof.
  induction n as [|n IH]; simpl; [reflexivity | rewrite IH; reflexivity].
Qed.

Section Init.
Context {Op : Type} `{Operators Op}.

(** What [__init__] returns, whatever the form of its arguments. *)
Lemma init_resolved (v : variant) (H_ : H_arg Op) (sc : sc_arg Op)
  (o : SolverOptions) (m_ops_ : list Op) (s : Solver.t Op) :
  __init__ v H_ sc o m_ops_ = Ok s ->
  options s = o
  /\ if store_measurement o
     then m_ops s
          = fst (choose_m_ops (as_list sc) m_ops_ (heterodyne o)
                   (dW_factor o))
          /\ dW_factors s
             = broadcast (as_list sc) (heterodyne o)
                 (snd (choose_m_ops (as_list sc) m_ops_ (heterodyne o)
                         (dW_factor o)))
          /\ length (dW_factors s) = n_m_ops (as_list sc) (heterodyne o)
     else m_ops s = [] /\ dW_factors s = [].
Proof.
  unfold __init__. destruct H_ as [h|]; [|discriminate].
  destruct (existsb _ _); [discriminate|].
  destruct (store_measurement o).
  - destruct (choose_m_ops _ _ _ _) as [ms dW]. cbn [fst snd].
    destruct (Nat.eqb _ _) eqn:El; [|discriminate]. cbn [negb].
    intro E. injection E as <-. cbn [options m_ops dW_factors].
    apply Nat.eqb_eq in El. repeat split; (reflexivity || exact El).
  - intro E. injection E as <-. repeat split; reflexivity.
Qed.

Lemma broadcast_numeric (sc_ops : list Op) (het : bool) (dW : dW_value) :
  dW <> dW_None ->
  exists ws, broadcast sc_ops het dW = map Some ws.
Proof.
  intro Hd. destruct dW as [|w|l]; [contradiction| |].
  - rewrite broadcast_scalar. eexists. apply repeat_map.
  - unfold broadcast. destruct (_ && _).
    + eexists. apply flat_map_pair_map.
    + eexists. reflexivity.
Qed.

Lemma choose_not_none (sc_ops m_ops_ : list Op) (het : bool)
  (dW : dW_value) :
  dW <> dW_None \/ length m_ops_ <> n_m_ops sc_ops het ->
  snd (choose_m_ops sc_ops m_ops_ het dW) <> dW_None.
Proof.
  intro Hd. unfold choose_m_ops.
  destruct (Nat.eqb (length m_ops_) (n_m_ops sc_ops het)) eqn:E.
  - apply Nat.eqb_eq in E. destruct Hd as [Hd | Hd]; [exact Hd|].
    contradiction.
  - unfold py_or.
    destruct het; cbn [snd]; destruct (truthy dW) eqn:Ht;
      try discriminate; destruct dW; try discriminate; simpl in Ht;
        discriminate Ht.
Qed.

(** X8.  Every solver the constructor returns has as many weights as
    measurement operators: [n_m_ops] of each when measurements are stored,
    none otherwise.  It keeps the options it was given. *)
Theorem init_channel_counts (v : variant) (H_ : H_arg Op) (sc : sc_arg Op)
  (o : SolverOptions) (m_ops_ : list Op) (s : Solver.t Op) :
  __init__ v H_ sc o m_ops_ = Ok s ->
  options s = o
  /\ length (dW_factors s) = length (m_ops s)
  /\ length (m_ops s)
     = if store_measurement o
       then n_m_ops (as_list sc) (heterodyne o)
       else 0.
Proof.
  intro Hs. destruct (init_resolved v H_ sc o m_ops_ s Hs) as [Ho Hres].
  split; [exact Ho|]. destruct (store_measurement o).
  - destruct Hres as [Hm [_ Hlen]].
    assert (Hml : length (m_ops s) = n_m_ops (as_list sc) (heterodyne o))
      by (rewrite Hm; apply choose_m_ops_length).
    split; congruence.
  - destruct Hres as [-> ->]. split; reflexivity.
Qed.

(** X9.  A [dW_factor] sequence with one entry per channel is used as it
    is, under either detection scheme and whatever [m_ops] is. *)
Theorem init_per_channel_sequence (v : variant) (h : Op)
  (sc_ops m_ops_ : list Op) (het : bool) (l : list R) :
  forallb isoper sc_ops = true ->
  length l = n_m_ops sc_ops het ->
  exists s : Solver.t Op,
    __init__ v (H_op h) (sc_list sc_ops) (mkOptions het true (dW_Seq l))
             m_ops_
    = Ok s
    /\ dW_factors s = map Some l.
Proof.
  intros Hops Hlen.
  destruct (Validation.init_length_cases v h sc_ops m_ops_
              (mkOptions het true (dW_Seq l)) Hops eq_refl)
    as [_ Hgood].
  cbn [heterodyne dW_factor] in Hgood.
  assert (Hb : broadcast sc_ops het
                 (snd (choose_m_ops sc_ops m_ops_ het (dW_Seq l)))
               = map Some l).
  { destruct l as [|w l'].
    - simpl in Hlen.
      assert (Hd : snd (choose_m_ops sc_ops m_ops_ het (dW_Seq []))
                   = dW_Seq []
                   \/ exists d, snd (choose_m_ops sc_ops m_ops_ het
                                       (dW_Seq []))
                                = dW_Scalar d).
      { unfold choose_m_ops. destruct (Nat.eqb _ _); [left; reflexivity|].
        right. destruct het; eexists; reflexivity. }
      destruct Hd as [-> | [d ->]].
      + unfold broadcast. simpl. destruct (_ && _); reflexivity.
      + rewrite broadcast_scalar, <- Hlen. reflexivity.
    - assert (Hd : snd (choose_m_ops sc_ops m_ops_ het (dW_Seq (w :: l')))
                   = dW_Seq (w :: l')).
      { unfold choose_m_ops. destruct (Nat.eqb _ _); [reflexivity|].
        destruct het; reflexivity. }
      rewrite Hd. unfold broadcast. rewrite length_map.
      destruct (Nat.eqb (length (w :: l')) (length sc_ops)) eqn:E;
        [|reflexivity].
      destruct het; [|reflexivity].
      apply Nat.eqb_eq in E. rewrite n_m_ops_heterodyne in Hlen.
      simpl in E, Hlen. lia. }
  rewrite Hb in Hgood. apply Hgood. rewrite length_map. exact Hlen.
Qed.

(** X10.  The weights of a constructed solver are all numbers as soon as a
    [dW_factor] was given or the measurement operators were derived from
    [sc_ops]: a [None] weight arises only from an absent [dW_factor] next to
    a full list of [m_ops]. *)
Theorem init_numeric_weights (v : variant) (H_ : H_arg Op) (sc : sc_arg Op)
  (o : SolverOptions) (m_ops_ : list Op) (s : Solver.t Op) :
  __init__ v H_ sc o m_ops_ = Ok s ->
  dW_factor o <> dW_None
  \/ length m_ops_ <> n_m_ops (as_list sc) (heterodyne o) ->
  exists ws, dW_factors s = map Some ws.
Proof.
  intros Hs Hd. destruct (init_resolved v H_ sc o m_ops_ s Hs) as [_ Hres].
  destruct (store_measurement o).
  - destruct Hres as [_ [-> _]].
    apply broadcast_numeric. apply choose_not_none. exact Hd.
  - destruct Hres as [_ ->]. exists []. reflexivity.
Qed.

(** X11.  A list of [m_ops] with one entry per channel is kept as it is
    and is not type-checked (only [sc_ops] are); a scalar [dW_factor] next
    to it is repeated once per channel, the scalar 0 included. *)
Theorem init_keeps_given_m_ops (v : variant) (h : Op)
  (sc_ops m_ops_ : list Op) (het : bool) (w : R) :
  forallb isoper sc_ops = true ->
  length m_ops_ = n_m_ops sc_ops het ->
  __init__ v (H_op h) (sc_list sc_ops) (mkOptions het true (dW_Scalar w))
           m_ops_
  = Ok (mk (_prep_system v h sc_ops het) (mkOptions het true (dW_Scalar w))
           m_ops_ (repeat (Some w) (n_m_ops sc_ops het))).
Proof.
  intros Hops Hm. rewrite init_store by (exact Hops || reflexivity).
  cbn [heterodyne dW_factor]. unfold choose_m_ops.
  apply Nat.eqb_eq in Hm. rewrite Hm. cbn [fst snd].
  rewrite broadcast_scalar, repeat_length, Nat.eqb_refl. reflexivity.
Qed.

End Init.

End ConstructionMore.

(** ** [_reduce_expect]: when the reduction returns *)

Module EnsembleMore.
Import Options StochasticResult.

Lemma even_mod2 (c : nat) : Nat.even c = true <-> c mod 2 = 0.
Proof.
  induction c as [c IH] using (well_founded_induction lt_wf).
  destruct c as [|[|c]].
  - split; reflexivity.
  - split; discriminate.
  - replace (S (S c)) with (c + 1 * 2) by lia.
    rewrite Nat.Div0.mod_add.
    replace (c + 1 * 2) with (S (S c)) by lia.
    change (Nat.even (S (S c))) with (Nat.even c).
    apply IH. lia.
Qed.

Lemma rows_forallb (n : nat) (nested : list (list R)) :
  Forall (fun row => length row = n) nested ->
  forall m, m = n ->
  forallb (fun r' => Nat.eqb (length r') m) nested = true.
Proof.
  intros Hrows m ->. induction Hrows as [|row rest Hrow _ IH];
    [reflexivity|].
  simpl. rewrite IH, Hrow, Nat.eqb_refl. reflexivity.
Qed.

(** [np.array] on a non-empty list of rows of one length. *)
Lemma array_rect (n : nat) (nested : list (list R)) :
  Forall (fun row => length row = n) nested ->
  nested <> [] ->
  Numpy.array nested = Ok (Numpy.mkNd [length nested; n] (concat nested)).
Proof.
  intros Hrows Hne. destruct nested as [|row rest]; [congruence|].
  unfold Numpy.array.
  assert (Hrow : length row = n) by (inversion Hrows; assumption).
  rewrite (rows_forallb n (row :: rest) Hrows (length row) Hrow), Hrow.
  reflexivity.
Qed.

(** Entry [j] of row [i] sits at offset [i * n + j] of the flat data. *)
Lemma concat_nth (n : nat) (nested : list (list R)) :
  Forall (fun row => length row = n) nested ->
  forall i j row x,
    nth_error nested i = Some row ->
    nth_error row j = Some x ->
    nth_error (concat nested) (i * n + j) = Some x.
Proof.
  intro Hrows. induction Hrows as [|row0 rest Hrow0 _ IH];
    intros i j row x Hrow Hx.
  - destruct i; discriminate Hrow.
  - destruct i as [|i].
    + injection Hrow as <-. cbn [concat Nat.mul Nat.add].
      rewrite nth_error_app1; [exact Hx|].
      apply nth_error_Some. congruence.
    + cbn [concat]. rewrite nth_error_app2 by (rewrite Hrow0; simpl; lia).
      replace (S i * n + j - length row0) with (i * n + j)
        by (rewrite Hrow0; simpl; lia).
      exact (IH i j row x Hrow Hx).
Qed.

Lemma reshape_rect (c n : nat) (d : list R) :
  Numpy.reshape_infer (Numpy.mkNd [c; n] d) 2 n
  = if Nat.eqb n 0 then Raise ValueError
    else if Nat.even c then Ok (Numpy.mkNd [c * n / (2 * n); 2; n] d)
         else Raise ValueError.
Proof.
  unfold Numpy.reshape_infer, Numpy.size_of. cbn [Numpy.shape fold_right].
  rewrite Nat.mul_1_r. destruct n as [|n].
  - rewrite Nat.mul_0_r. reflexivity.
  - replace (Nat.eqb (2 * S n) 0) with false
      by (symmetry; apply Nat.eqb_neq; lia).
    cbn [Nat.eqb]. rewrite Nat.Div0.mul_mod_distr_r.
    destruct (Nat.even c) eqn:Ec.
    + apply even_mod2 in Ec. rewrite Ec. reflexivity.
    + destruct (Nat.eqb (c mod 2 * S n) 0) eqn:E; [|reflexivity].
      apply Nat.eqb_eq in E.
      assert (Hc : c mod 2 = 0) by nia.
      apply even_mod2 in Hc. congruence.
Qed.

(** X12.  Under homodyne detection the reduction of a non-empty record
    whose channels all hold [n] entries returns: the array has shape
    [(n_channels, n)], entry [j] of channel [i] is its element at flat
    offset [i * n + j], this array replaces the nested list of the
    trajectory, and it is appended after the arrays the ensemble already
    holds, which stay as they are. *)
Theorem reduce_expect_homodyne (self : t) (n : nat)
  (nested : list (list R)) :
  heterodyne (options self) = false ->
  Forall (fun chan => length chan = n) nested ->
  nested <> [] ->
  let arr := Numpy.mkNd [length nested; n] (concat nested) in
  _reduce_expect self nested
  = Ok (mk (options self) (measurement self ++ [arr]) (processors self),
        arr)
  /\ forall i j chan x,
       nth_error nested i = Some chan ->
       nth_error chan j = Some x ->
       nth_error (Numpy.data arr) (i * n + j) = Some x.
Proof.
  intros Hhet Hrows Hne arr. split.
  - unfold _reduce_expect. rewrite (array_rect n nested Hrows Hne).
    cbn [bind]. rewrite Hhet. reflexivity.
  - exact (concat_nth n nested Hrows).
Qed.

(** X13.  Under heterodyne detection the reduction of a record whose
    channels all hold [n] entries raises [ValueError] when the record has
    no channel, when [n] is 0 or when the number of channels is odd: the
    call of [reshape] fails, although its result is not used.  In every
    other case the reduction returns and appends the array of shape
    [(n_channels, n)]. *)
Theorem reduce_expect_heterodyne (self : t) (n : nat)
  (nested : list (list R)) :
  heterodyne (options self) = true ->
  Forall (fun chan => length chan = n) nested ->
  let arr := Numpy.mkNd [length nested; n] (concat nested) in
  _reduce_expect self nested
  = if match nested with [] => true | _ :: _ => false end
       || Nat.eqb n 0 || Nat.odd (length nested)
    then Raise ValueError
    else Ok (mk (options self) (measurement self ++ [arr])
                (processors self), arr).
Proof.
  intros Hhet Hrows arr. destruct nested as [|chan rest].
  - unfold _reduce_expect. simpl. rewrite Hhet. reflexivity.
  - unfold _reduce_expect.
    rewrite (array_rect n (chan :: rest) Hrows) by discriminate.
    cbn [bind]. rewrite Hhet.
    change (Numpy.last_dim (Numpy.mkNd [length (chan :: rest); n]
                              (concat (chan :: rest))))
      with n.
    rewrite reshape_rect. cbn [orb].
    destruct (Nat.eqb n 0); [reflexivity|]. cbn [orb].
    rewrite <- Nat.negb_even.
    destruct (Nat.even (length (chan :: rest))); reflexivity.
Qed.

End EnsembleMore.

(** ** From construction to reduction *)

Module Pipeline.
Import Qobj Options Solver SolverFacts RunFacts.

Section Compose.
Context {Op State EOps IState Raw Seed Gen : Type}
  `{Operators Op} `{Expectation Op State}
  `{Integrator IState Raw State Seed Gen}.

(** A result whose first channel has a [None] weight cannot take a step
    that carries noise. *)
Lemma add_none_weight (r : TrajResult.t Op State EOps) (tm : R)
  (st : State) (a : Numpy.array2) (t0 : R) (ts : list R)
  (chan : list R) (chans : list (list R)) (m_op : Op) (ms : list Op)
  (fs : list (option R)) :
  store_measurement (TrajResult.options r) = true ->
  TrajResult.times r = t0 :: ts ->
  TrajResult.measurements r = chan :: chans ->
  TrajResult.m_ops r = m_op :: ms ->
  TrajResult.dW_factor r = None :: fs ->
  Numpy.wf a = true -> 1 <= Numpy.ncols a ->
  TrajResult.add r tm st (Some a) = Raise TypeError.
Proof.
  intros Hstore Hts Hch Hm Hf Hwf Hcols. unfold TrajResult.add.
  TrajFacts.record_fields. unfold TrajResult.Result_add.
  TrajFacts.record_fields. rewrite Hstore, index_neg_last. cbn [bind].
  assert (Hlast : exists tp j, nth_error (TrajResult.times r) j = Some tp
                               /\ S j = length (TrajResult.times r)).
  { rewrite Hts.
    destruct (nth_error (t0 :: ts) (length ts)) as [tp|] eqn:E;
      [exists tp, (length ts); auto|].
    apply nth_error_None in E. simpl in E. lia. }
  destruct Hlast as [tp [j [Htp Hj]]].
  rewrite (index_neg_before_last _ tm tp j Htp Hj). cbn [bind].
  unfold TrajResult._add_measurement. TrajFacts.record_fields.
  rewrite Hch, Hm, Hf.
  assert (Hsum : length (Numpy.sum_axis0 (Numpy.div a (tm - tp)))
                 = Numpy.ncols a).
  { rewrite NumpyFacts.sum_axis0_div, length_map.
    apply NumpyFacts.sum_axis0_length. exact Hwf. }
  destruct (Numpy.sum_axis0 (Numpy.div a (tm - tp))) as [|x xs];
    [simpl in Hsum; lia|].
  reflexivity.
Qed.

(** X14.  An absent [dW_factor] next to a full, non-empty list of [m_ops]
    passes construction, and the solver built fails at the first step of
    every trajectory over two or more grid points: the step raises
    [TypeError] when the noise is multiplied by the weight [None]. *)
Theorem absent_weight_fails_at_run (v : variant) (h : Op)
  (sc_ops m_ops_ : list Op) (het : bool) (ist : IState) (seed : Seed)
  (state : Raw) (t0 t1 : R) (rest : list R) (e : EOps) :
  forallb isoper sc_ops = true ->
  sc_ops <> [] ->
  length m_ops_ = n_m_ops sc_ops het ->
  reports_noise 1 ->
  exists s : Solver.t Op,
    __init__ v (H_op h) (sc_list sc_ops) (mkOptions het true dW_None) m_ops_
    = Ok s
    /\ _run_one_traj s ist seed state (t0 :: t1 :: rest) e
       = Raise TypeError.
Proof.
  intros Hops Hne Hm Hnoise.
  rewrite (Validation.init_absent_with_m_ops v h sc_ops m_ops_ het Hops Hm).
  eexists. split; [reflexivity|].
  unfold _run_one_traj. cbn [options m_ops dW_factors].
  unfold TrajResult.add at 1. cbn [bind steps].
  destruct (Hnoise (set_state ist t0 state (_get_generator seed)) t1)
    as [ist1 [tm1 [raw [a [Hint [Hwf Hcols]]]]]].
  rewrite Hint.
  assert (Hn : n_m_ops sc_ops het <> 0).
  { unfold n_m_ops. destruct sc_ops; [congruence | simpl; lia]. }
  destruct (n_m_ops sc_ops het) as [|n] eqn:En; [congruence|].
  destruct m_ops_ as [|m_op ms]; [discriminate Hm|].
  rewrite (add_none_weight _ tm1 (_restore_state raw) a t0 []
             [] (map (fun _ => []) ms) m_op ms (repeat None n));
    try reflexivity; assumption.
Qed.

(** The run of a solver with numeric weights, one per operator, against an
    integrator that reports noise for every channel. *)
Lemma run_recorded (self : Solver.t Op) (ws : list R) (ist : IState)
  (seed : Seed) (state : Raw) (tlist : list R) (e : EOps) :
  store_measurement (options self) = true ->
  dW_factors self = map Some ws ->
  length ws = length (m_ops self) ->
  reports_noise (length (m_ops self)) ->
  tlist <> [] ->
  exists (ist' : IState) (r : TrajResult.t Op State EOps),
    _run_one_traj self ist seed state tlist e = Ok (ist', (seed, r))
    /\ TrajFacts.recorded ws r
    /\ TrajResult.m_ops r = m_ops self
    /\ length (TrajResult.times r) = length tlist.
Proof.
  intros Hstore Hws Hlen Hnoise Hne.
  destruct tlist as [|t0 rest]; [congruence|].
  unfold _run_one_traj. rewrite Hws.
  pose (r0 := TrajResult.Result_add
                (TrajResult._post_init e (options self) (m_ops self)
                   (map Some ws)) t0 (_restore_state state)).
  assert (Hrec0 : TrajFacts.recorded ws r0)
    by (apply TrajFacts.recorded_initial; assumption).
  destruct (steps_recorded ws rest
              (set_state ist t0 state (_get_generator seed)) r0
              Hnoise Hrec0)
    as [ist' [r [Hsteps [Hrec [Hm Ht]]]]].
  exists ist', r.
  unfold TrajResult.add. fold r0. cbn [bind]. rewrite Hsteps. cbn [bind].
  simpl in Ht, Hm.
  split; [reflexivity|]. split; [exact Hrec|].
  split; [exact Hm | simpl; lia].
Qed.

(** The solver built when neither [dW_factor] nor [m_ops] is given. *)
Lemma init_default_config (v : variant) (h : Op) (sc_ops : list Op)
  (het : bool) :
  forallb isoper sc_ops = true ->
  exists (s : Solver.t Op) (ws : list R),
    __init__ v (H_op h) (sc_list sc_ops) (mkOptions het true dW_None) []
    = Ok s
    /\ options s = mkOptions het true dW_None
    /\ dW_factors s = map Some ws
    /\ length ws = length (m_ops s)
    /\ length (m_ops s) = n_m_ops sc_ops het.
Proof.
  intro Hops.
  destruct (Validation.init_length_cases v h sc_ops []
              (mkOptions het true dW_None) Hops eq_refl)
    as [_ Hgood].
  cbn [heterodyne dW_factor] in Hgood.
  assert (Hres : exists d,
             broadcast sc_ops het
               (snd (choose_m_ops sc_ops [] het dW_None))
             = repeat (Some d) (n_m_ops sc_ops het)).
  { unfold choose_m_ops.
    destruct (Nat.eqb (length (@nil Op)) (n_m_ops sc_ops het)) eqn:E.
    - apply Nat.eqb_eq in E. simpl in E. cbn [snd].
      rewrite broadcast_none, <- E. exists 0%R. reflexivity.
    - destruct het; cbn [snd py_or truthy]; rewrite broadcast_scalar;
        eexists; reflexivity. }
  destruct Hres as [d Hres]. rewrite Hres, repeat_length in Hgood.
  destruct (Hgood eq_refl) as [s [Hs Hw]].
  pose proof (init_lengths _ _ _ _ _ _ Hs) as Hl.
  destruct (ConstructionMore.init_resolved _ _ _ _ _ _ Hs) as [Ho _].
  exists s, (repeat d (n_m_ops sc_ops het)).
  split; [exact Hs|]. split; [exact Ho|].
  split; [rewrite Hw; apply ConstructionMore.repeat_map|].
  rewrite Hw, repeat_length in Hl. rewrite repeat_length.
  split; congruence.
Qed.

(** X15.  With [store_measurement] enabled and neither [dW_factor] nor
    [m_ops] given, construction succeeds under either detection scheme, and
    a trajectory of the solver over a non-empty grid, against an integrator
    that reports noise for every channel, returns a record of [n_m_ops]
    channels, each with one entry per step after the initial point, beside
    one noise array per such step. *)
Theorem default_config_record (v : variant) (h : Op) (sc_ops : list Op)
  (het : bool) (ist : IState) (seed : Seed) (state : Raw)
  (tlist : list R) (e : EOps) :
  forallb isoper sc_ops = true ->
  reports_noise (n_m_ops sc_ops het) ->
  tlist <> [] ->
  exists (s : Solver.t Op) (ist' : IState)
         (r : TrajResult.t Op State EOps),
    __init__ v (H_op h) (sc_list sc_ops) (mkOptions het true dW_None) []
    = Ok s
    /\ _run_one_traj s ist seed state tlist e = Ok (ist', (seed, r))
    /\ length (TrajResult.measurements r) = n_m_ops sc_ops het
    /\ (forall chan, In chan (TrajResult.measurements r) ->
                     length chan = length tlist - 1)
    /\ length (TrajResult.noise r) = length tlist - 1.
Proof.
  intros Hops Hnoise Hne.
  destruct (init_default_config v h sc_ops het Hops)
    as [s [ws [Hs [Ho [Hw [Hlw Hlm]]]]]].
  rewrite <- Hlm in Hnoise.
  destruct (run_recorded s ws ist seed state tlist e)
    as [ist' [r [Hrun [Hrec [Hm Ht]]]]]; try assumption.
  { rewrite Ho. reflexivity. }
  exists s, ist', r. split; [exact Hs|]. split; [exact Hrun|].
  destruct Hrec as [_ _ _ _ Hnz Hch Hst _].
  split; [congruence|]. split.
  - intros chan Hin. rewrite (Hst chan Hin). lia.
  - lia.
Qed.

(** X16.  Construction, one trajectory and its reduction compose: for at
    least one collapse operator, a grid of two or more points and the
    default measurement configuration, the record of the trajectory is
    accepted by [_reduce_expect] of any ensemble whose [heterodyne] option
    is the solver's.  Under both detection schemes the call returns, the
    array it appends after the arrays the ensemble holds has shape
    [(n_m_ops, len(tlist) - 1)], and its options and processors are
    kept. *)
Theorem construct_run_reduce (v : variant) (h : Op) (sc_ops : list Op)
  (het : bool) (ist : IState) (seed : Seed) (state : Raw)
  (tlist : list R) (e : EOps) (ens0 : StochasticResult.t) :
  forallb isoper sc_ops = true ->
  sc_ops <> [] ->
  reports_noise (n_m_ops sc_ops het) ->
  2 <= length tlist ->
  heterodyne (StochasticResult.options ens0) = het ->
  exists (s : Solver.t Op) (ist' : IState)
         (r : TrajResult.t Op State EOps) (arr : Numpy.ndarray),
    __init__ v (H_op h) (sc_list sc_ops) (mkOptions het true dW_None) []
    = Ok s
    /\ _run_one_traj s ist seed state tlist e = Ok (ist', (seed, r))
    /\ StochasticResult._reduce_expect ens0 (TrajResult.measurements r)
       = Ok (StochasticResult.mk
               (StochasticResult.options ens0)
               (StochasticResult.measurement ens0 ++ [arr])
               (StochasticResult.processors ens0),
             arr)
    /\ Numpy.shape arr = [n_m_ops sc_ops het; length tlist - 1].
Proof.
  intros Hops Hsc Hnoise Hlen Hens.
  destruct (init_default_config v h sc_ops het Hops)
    as [s [ws [Hs [Ho [Hw [Hlw Hlm]]]]]].
  rewrite <- Hlm in Hnoise.
  destruct (run_recorded s ws ist seed state tlist e)
    as [ist' [r [Hrun [Hrec [Hm Ht]]]]]; try assumption.
  { rewrite Ho. reflexivity. }
  { intro E. rewrite E in Hlen. simpl in Hlen. lia. }
  destruct Hrec as [_ _ _ _ Hnz Hch Hst _].
  assert (Hrows : Forall (fun chan => length chan = length tlist - 1)
                    (TrajResult.measurements r)).
  { apply Forall_forall. intros chan Hin. rewrite (Hst chan Hin). lia. }
  assert (Hn : n_m_ops sc_ops het <> 0).
  { unfold n_m_ops. destruct sc_ops; [congruence | simpl; lia]. }
  assert (Hcount : length (TrajResult.measurements r) = n_m_ops sc_ops het)
    by congruence.
  assert (Hne : TrajResult.measurements r <> []).
  { intro E. rewrite E in Hcount. simpl in Hcount. lia. }
  pose proof (EnsembleMore.array_rect _ _ Hrows Hne) as Harr.
  exists s, ist', r. eexists.
  split; [exact Hs|]. split; [exact Hrun|].
  unfold StochasticResult._reduce_expect. rewrite Harr. cbn [bind].
  rewrite Hens. destruct het.
  - change (Numpy.last_dim
              (Numpy.mkNd [length (TrajResult.measurements r);
                           length tlist - 1]
                 (concat (TrajResult.measurements r))))
      with (length tlist - 1).
    rewrite EnsembleMore.reshape_rect.
    replace (Nat.eqb (length tlist - 1) 0) with false
      by (symmetry; apply Nat.eqb_neq; lia).
    assert (Hev : Nat.even (length (TrajResult.measurements r)) = true).
    { rewrite Hcount, n_m_ops_heterodyne.
      apply Nat.even_spec. exists (length sc_ops). reflexivity. }
    rewrite Hev. cbn [bind]. split; [reflexivity|].
    cbn [Numpy.shape]. rewrite Hcount. reflexivity.
  - cbn [bind]. split; [reflexivity|].
    cbn [Numpy.shape]. rewrite Hcount. reflexivity.
Qed.

End Compose.

End Pipeline.

(** ** The measurement record of a trajectory *)

Module MeasurementRecord.
Import Qobj Options Solver RunFacts Integration.

Section Run.
Context {Op State EOps IState Raw Seed Gen : Type}
  `{Expectation Op State} `{Integrator IState Raw State Seed Gen}.




End Run.

End MeasurementRecord.

(** ** [avail_integrators]: the tables of a class and of its base *)

Module RegistryFacts.
Import Registry.

Section Dict.
Context {V : Type}.

Lemma get_set (d : dict V) (k k' : string) (x : V) :
  get (set d k x) k' = if String.eqb k k' then Some x else get d k'.
Proof.
  induction d as [|[k0 x0] d IH]; simpl.
  - reflexivity.
  - destruct (String.eqb k0 k) eqn:E0; simpl.
    + apply String.eqb_eq in E0. subst k0.
      destruct (String.eqb k k'); reflexivity.
    + destruct (String.eqb k0 k') eqn:E1; [|exact IH].
      apply String.eqb_eq in E1. subst k0.
      rewrite String.eqb_sym, E0. reflexivity.
Qed.

Lemma get_absent (d : dict V) (k : string) :
  ~ In k (keys d) -> get d k = None.
Proof.
  induction d as [|[k0 x0] d IH]; simpl; intro Hnot; [reflexivity|].
  destruct (String.eqb k0 k) eqn:E.
  - apply String.eqb_eq in E. exfalso. apply Hnot. left. exact E.
  - apply IH. intro Hin. apply Hnot. right. exact Hin.
Qed.

Lemma get_update (b : dict V) :
  NoDup (keys b) ->
  forall (d : dict V) (k : string),
    get (update d b) k
    = match get b k with
      | Some x => Some x
      | None => get d k
      end.
Proof.
  unfold update. induction b as [|[k0 x0] b IH]; intros Hnd d k.
  - reflexivity.
  - simpl in Hnd. inversion Hnd as [|k1 ks Hnot Hnd']. subst.
    cbn [fold_left fst snd get]. rewrite (IH Hnd'), get_set.
    destruct (String.eqb k0 k) eqn:E.
    + apply String.eqb_eq in E. subst k0.
      rewrite (get_absent b k Hnot). reflexivity.
    + reflexivity.
Qed.

Lemma keys_set (d : dict V) (k : string) (x : V) :
  keys (set d k x) = if existsb (String.eqb k) (keys d)
                     then keys d else keys d ++ [k].
Proof.
  induction d as [|[k0 x0] d IH]; simpl; [reflexivity|].
  rewrite (String.eqb_sym k k0). destruct (String.eqb k0 k); simpl.
  - reflexivity.
  - rewrite IH. destruct (existsb _ _); reflexivity.
Qed.

Lemma set_nodup (d : dict V) (k : string) (x : V) :
  NoDup (keys d) -> NoDup (keys (set d k x)).
Proof.
  intro Hnd. rewrite keys_set.
  destruct (existsb (String.eqb k) (keys d)) eqn:E; [exact Hnd|].
  apply NoDup_app; [exact Hnd | repeat constructor; intros [] |].
  intros k' Hin [<- | []].
  assert (Ht : existsb (String.eqb k) (keys d) = true).
  { apply existsb_exists. exists k. split; [exact Hin|].
    apply String.eqb_refl. }
  congruence.
Qed.

Lemma update_nodup (b d : dict V) :
  NoDup (keys d) -> NoDup (keys (update d b)).
Proof.
  unfold update. revert d. induction b as [|[k0 x0] b IH]; intros d Hnd.
  - exact Hnd.
  - cbn [fold_left fst snd]. apply IH. apply set_nodup. exact Hnd.
Qed.

(** X17.  A name resolves in [SMESolver.avail_integrators()] and in
    [SSESolver.avail_integrators()] to the class's own entry when it has
    one and to the entry of [StochasticSolver] otherwise, and in
    [StochasticSolver.avail_integrators()] to the entry of
    [StochasticSolver] alone; the dictionary returned has every key
    once. *)
Theorem avail_integrators_lookup (c : cls) (regs : registries V)
  (k : string) :
  NoDup (keys (_avail_integrators StochasticSolver regs)) ->
  NoDup (keys (_avail_integrators c regs)) ->
  get (avail_integrators c regs) k
  = match c with
    | StochasticSolver => get (_avail_integrators StochasticSolver regs) k
    | Subclass _ =>
        match get (_avail_integrators c regs) k with
        | Some x => Some x
        | None => get (_avail_integrators StochasticSolver regs) k
        end
    end
  /\ NoDup (keys (avail_integrators c regs)).
Proof.
  intros Hbase Hown. destruct c as [|v].
  - split; [reflexivity | exact Hbase].
  - unfold avail_integrators. split.
    + apply get_update. exact Hown.
    + apply update_nodup. exact Hbase.
Qed.

End Dict.

End RegistryFacts.

(** ** [smesolve] and [ssesolve]: the solver they build *)

Module DispatchFacts.
Import Qobj Options Solver SolverFacts Dispatch.

Section Solve.
Context {Op : Type} `{Operators Op} `{Liouville Op}.

Lemma existsb_forallb (sc_ops : list Op) :
  existsb (fun c_op => negb (isoper c_op)) sc_ops
  = negb (forallb isoper sc_ops).
Proof.
  induction sc_ops as [|c l IH]; simpl; [reflexivity|].
  rewrite IH. destruct (isoper c); reflexivity.
Qed.

(** X18.  Called without options, [ssesolve] and [smesolve] build a solver
    that stores no measurement, whatever [m_ops] they are given: its
    measurement operators and weights are empty.  The one failure before
    [run] is the [TypeError] for a stochastic collapse operator that is not
    an operator. *)
Theorem solve_without_options (H_ : Op) (c_ops sc_ops m_ops_ : list Op) :
  ssesolve_sol H_ sc_ops m_ops_ None
  = (if forallb isoper sc_ops
     then Ok (mk (StochasticClosedSystem H_ sc_ops false) solver_options
                 [] [])
     else Raise TypeError)
  /\ smesolve_sol H_ c_ops sc_ops m_ops_ None
     = (if forallb isoper sc_ops
        then Ok (mk (_prep_system SMESolver (smesolve_L H_ c_ops) sc_ops
                       false)
                    solver_options [] [])
        else Raise TypeError).
Proof.
  unfold ssesolve_sol, smesolve_sol, __init__. cbn [as_list].
  rewrite existsb_forallb.
  destruct (forallb isoper sc_ops); split; reflexivity.
Qed.

(** X19.  When the operator algebra returns superoperators from
    [liouvillian] and from the sum of a superoperator and another operator,
    the generator of the system that [smesolve] builds is exactly
    [H + liouvillian(None, c_ops)] for a superoperator [H] and
    [liouvillian(H, c_ops)] otherwise: [SMESolver] does not apply
    [liouvillian] to it a second time. *)
Theorem smesolve_generator (H_ : Op) (c_ops sc_ops m_ops_ : list Op)
  (options_ : option SolverOptions) (s : Solver.t Op) :
  (forall h cs, qtype (liouvillian_c h cs) = super) ->
  (forall a b, qtype a = super -> qtype (op_add a b) = super) ->
  smesolve_sol H_ c_ops sc_ops m_ops_ options_ = Ok s ->
  rhs s
  = StochasticOpenSystem
      (if issuper H_
       then op_add H_ (liouvillian_c None c_ops)
       else liouvillian_c (Some H_) c_ops)
      sc_ops (heterodyne (options_or_default options_)).
Proof.
  intros Hliou Hadd Hs.
  assert (Hsuper : issuper (smesolve_L H_ c_ops) = true).
  { unfold smesolve_L, issuper.
    destruct (qobj_type_eqb (qtype H_) super) eqn:E.
    - assert (Hq : qtype H_ = super)
        by (destruct (qtype H_); simpl in E; congruence).
      rewrite (Hadd _ _ Hq). reflexivity.
    - rewrite Hliou. reflexivity. }
  unfold smesolve_sol, __init__ in Hs. cbn [as_list] in Hs.
  destruct (existsb _ _); [discriminate Hs|].
  assert (Hrhs : _prep_system SMESolver (smesolve_L H_ c_ops) sc_ops
                   (heterodyne (options_or_default options_))
                 = StochasticOpenSystem (smesolve_L H_ c_ops) sc_ops
                     (heterodyne (options_or_default options_))).
  { unfold _prep_system. rewrite Hsuper. reflexivity. }
  rewrite Hrhs in Hs.
  destruct (store_measurement (options_or_default options_)).
  - destruct (choose_m_ops _ _ _ _) as [ms dW].
    destruct (negb _); [discriminate Hs|].
    injection Hs as <-. reflexivity.
  - injection Hs as <-. reflexivity.
Qed.

End Solve.

End DispatchFacts.

(** ** The further properties on the concrete instance *)

Module MoreInstances.
Import Qobj Options Solver Toy ToyDispatch.

(** A result holding the initial point of a trajectory of [solver]. *)
Definition started : TrajResult.t term R unit :=
  TrajResult.mk tt (mkOptions false true dW_None) [0%R] [0%R] []
                [Add a (Dag a)] [Some 1%R] [[]].

(** A result on which nothing has been recorded yet. *)
Definition blank : TrajResult.t term R unit :=
  TrajResult.mk tt (mkOptions false true dW_None) [] [] []
                [Add a (Dag a)] [Some 1%R] [[]].

(** A result with two channels and a single operator and weight. *)
Definition lopsided : TrajResult.t term R unit :=
  TrajResult.mk tt (mkOptions false true dW_None) [0%R] [0%R] []
                [Add a (Dag a)] [Some 1%R] [[]; [5%R]].

Lemma add_appends_witness :
  exists r',
    TrajResult.add started 1%R 2%R (Some (toy_noise 1 3)) = Ok r'
    /\ TrajResult.times r' = [0%R; 1%R]
    /\ TrajResult.noise r' = [toy_noise 1 3].
Proof.
  eexists. split; [reflexivity|].
  destruct (TrajMore.add_appends started _ 1%R 2%R
              (Some (toy_noise 1 3)) eq_refl)
    as [Ht [_ [Hn _]]].
  split; [exact Ht | exact Hn].
Defined.

Lemma add_measurement_skips_witness :
  TrajResult.dW_factor lopsided = map Some [1%R]
  /\ exists r',
       TrajResult._add_measurement lopsided 1%R 2%R (toy_noise 2 3) = Ok r'
       /\ nth_error (TrajResult.measurements r') 1 = Some [5%R].
Proof.
  split; [reflexivity|].
  destruct (TrajMore.add_measurement_skips lopsided [1%R] 1%R 2%R
              (toy_noise 2 3) eq_refl)
    as [r' [Hr' [_ [_ [_ [_ [_ Hrest]]]]]]].
  exists r'. split; [exact Hr'|].
  rewrite (Hrest 1); [reflexivity|]. left. reflexivity.
Defined.

Lemma add_fails_only_at_first_point_witness :
  TrajResult.dW_factor blank = map Some [1%R]
  /\ TrajResult.add blank 1%R 2%R (Some (toy_noise 1 3)) = Raise IndexError.
Proof.
  split; [reflexivity|].
  apply (TrajMore.add_fails_only_at_first_point blank [1%R] 1%R 2%R
           (Some (toy_noise 1 3)) eq_refl IndexError).
  split; [reflexivity|]. split; [discriminate|]. split; reflexivity.
Defined.

Lemma run_records_trace_witness :
  exists ist' r,
    @_run_one_traj _ _ unit _ _ _ _ term_expect (toy_integrator 1)
      solver fresh 7 0%R [0%R; 1%R; 3%R] tt = Ok (ist', (7, r))
    /\ TrajResult.times r = [0%R; 1%R; 3%R]
    /\ TrajResult.noise r = [toy_noise 1 7; toy_noise 1 8].
Proof.
  eexists. eexists. split; [reflexivity|].
  destruct (@RunMore.run_records_trace
              _ _ unit _ _ _ _ term_expect (toy_integrator 1)
              solver fresh _ 7 7 0%R 0%R [1%R; 3%R] tt _ eq_refl)
    as [_ [_ [Ht [_ [Hn _]]]]].
  split; [exact Ht | exact Hn].
Defined.

(** A solver that stores no measurement and yet carries a [None] weight. *)
Definition unweighted : Solver.t term :=
  Solver.mk (StochasticClosedSystem m [a] false)
            (mkOptions false false dW_None) [Add a (Dag a)] [None].

Lemma run_without_store_witness :
  store_measurement (options unweighted) = false
  /\ exists ist' r,
       @_run_one_traj _ _ unit _ _ _ _ term_expect (toy_integrator 1)
         unweighted fresh 7 0%R [0%R; 1%R; 3%R] tt = Ok (ist', (7, r))
       /\ TrajResult.measurements r = [[]]
       /\ length (TrajResult.times r) = 3
       /\ TrajResult.noise r = [toy_noise 1 7; toy_noise 1 8].
Proof.
  split; [reflexivity|].
  eexists. eexists. split; [reflexivity|].
  destruct (@RunMore.run_without_store
              _ _ unit _ _ _ _ term_expect (toy_integrator 1)
              unweighted fresh 7 0%R 0%R [1%R; 3%R] tt eq_refl)
    as [_ Hrun].
  destruct (Hrun _ 7 _ eq_refl) as [Hms [Ht Hn]].
  split; [exact Hms|]. split; [exact Ht | exact Hn].
Defined.

Lemma init_channel_counts_witness :
  exists s0 : Solver.t term,
    __init__ SMESolver (H_op m) (sc_list [a; b])
             (mkOptions true true (dW_Scalar 3)) []
    = Ok s0
    /\ length (dW_factors s0) = length (m_ops s0)
    /\ length (m_ops s0) = 4.
Proof.
  destruct (Validation.init_scalar SMESolver m [a; b] [] true 3%R)
    as [s0 [Hs0 _]]; [reflexivity | left; lra |].
  exists s0. split; [exact Hs0|].
  destruct (ConstructionMore.init_channel_counts _ _ _ _ _ _ Hs0)
    as [_ [Hw Hm]].
  split; [exact Hw | exact Hm].
Defined.

Lemma init_per_channel_sequence_witness :
  length [1%R; 2%R; 3%R; 4%R] = n_m_ops [a; b] true
  /\ exists s0 : Solver.t term,
       __init__ SSESolver (H_op m) (sc_list [a; b])
                (mkOptions true true (dW_Seq [1%R; 2%R; 3%R; 4%R])) []
       = Ok s0
       /\ dW_factors s0 = [Some 1%R; Some 2%R; Some 3%R; Some 4%R].
Proof.
  split; [reflexivity|].
  apply (ConstructionMore.init_per_channel_sequence SSESolver m [a; b] []
           true [1%R; 2%R; 3%R; 4%R]); reflexivity.
Defined.

Lemma init_numeric_weights_witness :
  exists (s0 : Solver.t term) (ws : list R),
    __init__ SSESolver (H_op m) (sc_list [a])
             (mkOptions false true (dW_Scalar 2)) [m]
    = Ok s0
    /\ dW_factors s0 = map Some ws.
Proof.
  destruct (Validation.init_scalar SSESolver m [a] [m] false 2%R)
    as [s0 [Hs0 _]]; [reflexivity | left; lra |].
  destruct (ConstructionMore.init_numeric_weights _ _ _ _ _ _ Hs0)
    as [ws Hws]; [left; discriminate|].
  exists s0, ws. split; [exact Hs0 | exact Hws].
Defined.

Lemma init_keeps_given_m_ops_witness :
  length [sup] = n_m_ops [a] false
  /\ __init__ SSESolver (H_op m) (sc_list [a])
              (mkOptions false true (dW_Scalar 0)) [sup]
     = Ok (mk (StochasticClosedSystem m [a] false)
              (mkOptions false true (dW_Scalar 0)) [sup] [Some 0%R]).
Proof.
  split; [reflexivity|].
  apply (ConstructionMore.init_keeps_given_m_ops SSESolver m [a] [sup]
           false 0%R); reflexivity.
Defined.

(** A fresh ensemble under each detection scheme. *)
Definition homodyne_ensemble : StochasticResult.t :=
  StochasticResult.mk (mkOptions false true dW_None) [] [].

Definition heterodyne_ensemble : StochasticResult.t :=
  StochasticResult.mk (mkOptions true true dW_None) [] [].

Lemma reduce_expect_homodyne_witness :
  exists ens arr,
    StochasticResult._reduce_expect homodyne_ensemble
      [[1%R; 2%R]; [3%R; 4%R]; [5%R; 6%R]]
    = Ok (ens, arr)
    /\ Numpy.shape arr = [3; 2]
    /\ nth_error (Numpy.data arr) (2 * 2 + 1) = Some 6%R.
Proof.
  destruct (EnsembleMore.reduce_expect_homodyne homodyne_ensemble 2
              [[1%R; 2%R]; [3%R; 4%R]; [5%R; 6%R]])
    as [Hred Hnth].
  - reflexivity.
  - repeat constructor.
  - discriminate.
  - eexists. eexists. split; [exact Hred|]. split; [reflexivity|].
    exact (Hnth 2 1 [5%R; 6%R] 6%R eq_refl eq_refl).
Defined.

Lemma reduce_expect_heterodyne_witness :
  StochasticResult._reduce_expect heterodyne_ensemble
    [[1%R; 2%R]; [3%R; 4%R]; [5%R; 6%R]]
  = Raise ValueError
  /\ StochasticResult._reduce_expect heterodyne_ensemble [[]; []]
     = Raise ValueError
  /\ StochasticResult._reduce_expect heterodyne_ensemble []
     = Raise ValueError.
Proof.
  split; [|split].
  - rewrite (EnsembleMore.reduce_expect_heterodyne heterodyne_ensemble 2
               [[1%R; 2%R]; [3%R; 4%R]; [5%R; 6%R]]);
      [reflexivity | reflexivity | repeat constructor].
  - rewrite (EnsembleMore.reduce_expect_heterodyne heterodyne_ensemble 0
               [[]; []]);
      [reflexivity | reflexivity | repeat constructor].
  - rewrite (EnsembleMore.reduce_expect_heterodyne heterodyne_ensemble 0 []);
      [reflexivity | reflexivity | constructor].
Defined.

Lemma absent_weight_fails_at_run_witness :
  exists s0 : Solver.t term,
    __init__ SSESolver (H_op m) (sc_list [a])
             (mkOptions false true dW_None) [m]
    = Ok s0
    /\ @_run_one_traj _ _ unit _ _ _ _ term_expect (toy_integrator 1)
         s0 fresh 7 0%R [0%R; 1%R; 3%R] tt
       = Raise TypeError.
Proof.
  apply (@Pipeline.absent_weight_fails_at_run
           _ _ unit _ _ _ _ _ term_expect (toy_integrator 1)
           SSESolver m [a] [m] false fresh 7 0%R 0%R 1%R [3%R] tt).
  - reflexivity.
  - discriminate.
  - reflexivity.
  - exact (ToyFacts.toy_reports_noise 1).
Defined.

Lemma default_config_record_witness :
  exists (s0 : Solver.t term) ist' r,
    __init__ SMESolver (H_op m) (sc_list [a; b])
             (mkOptions true true dW_None) []
    = Ok s0
    /\ @_run_one_traj _ _ unit _ _ _ _ term_expect (toy_integrator 4)
         s0 fresh 7 0%R [0%R; 1%R; 3%R] tt
       = Ok (ist', (7, r))
    /\ length (TrajResult.measurements r) = 4
    /\ length (TrajResult.noise r) = 2.
Proof.
  destruct (@Pipeline.default_config_record
              _ _ unit _ _ _ _ _ term_expect (toy_integrator 4)
              SMESolver m [a; b] true fresh 7 0%R [0%R; 1%R; 3%R] tt)
    as [s0 [ist' [r [Hs0 [Hrun [Hch [_ Hnz]]]]]]].
  - reflexivity.
  - exact (ToyFacts.toy_reports_noise 4).
  - discriminate.
  - exists s0, ist', r. split; [exact Hs0|]. split; [exact Hrun|].
    split; [exact Hch | exact Hnz].
Defined.

Lemma construct_run_reduce_witness :
  exists (s0 : Solver.t term) ist' r arr,
    __init__ SMESolver (H_op m) (sc_list [a; b])
             (mkOptions true true dW_None) []
    = Ok s0
    /\ @_run_one_traj _ _ unit _ _ _ _ term_expect (toy_integrator 4)
         s0 fresh 7 0%R [0%R; 1%R; 3%R] tt
       = Ok (ist', (7, r))
    /\ StochasticResult._reduce_expect heterodyne_ensemble
         (TrajResult.measurements r)
       = Ok (StochasticResult.mk (mkOptions true true dW_None) [arr] [],
             arr)
    /\ Numpy.shape arr = [4; 2].
Proof.
  destruct (@Pipeline.construct_run_reduce
              _ _ unit _ _ _ _ _ term_expect (toy_integrator 4)
              SMESolver m [a; b] true fresh 7 0%R [0%R; 1%R; 3%R] tt
              heterodyne_ensemble)
    as [s0 [ist' [r [arr [Hs0 [Hrun [Hred Hsh]]]]]]].
  - reflexivity.
  - discriminate.
  - exact (ToyFacts.toy_reports_noise 4).
  - simpl. lia.
  - reflexivity.
  - exists s0, ist', r, arr. split; [exact Hs0|].
    split; [exact Hrun|]. split; [exact Hred | exact Hsh].
Defined.

(** Tables of integrators by name, the values being numbers here. *)
Definition toy_registries : Registry.registries nat :=
  Registry.mkRegistries
    [("platen"%string, 1); ("euler"%string, 2)]
    [("euler"%string, 3); ("rouchon"%string, 4)]
    [].

Lemma avail_integrators_lookup_witness :
  Registry.get
    (Registry.avail_integrators (Registry.Subclass SMESolver)
       toy_registries) "euler"%string
  = Some 3
  /\ Registry.get
       (Registry.avail_integrators (Registry.Subclass SMESolver)
          toy_registries) "platen"%string
     = Some 1
  /\ Registry.get
       (Registry.avail_integrators (Registry.Subclass SSESolver)
          toy_registries) "rouchon"%string
     = None.
Proof.
  assert (Hnd2 : forall x y : string,
             x <> y -> NoDup [x; y]).
  { intros x y Hxy. constructor; [intros [E | []]; congruence|].
    constructor; [intros [] | constructor]. }
  split; [|split].
  - apply (RegistryFacts.avail_integrators_lookup
             (Registry.Subclass SMESolver) toy_registries "euler"%string);
      apply Hnd2; discriminate.
  - apply (RegistryFacts.avail_integrators_lookup
             (Registry.Subclass SMESolver) toy_registries "platen"%string);
      apply Hnd2; discriminate.
  - apply (RegistryFacts.avail_integrators_lookup
             (Registry.Subclass SSESolver) toy_registries
             "rouchon"%string);
      [apply Hnd2; discriminate | constructor].
Defined.

Lemma smesolve_generator_witness :
  exists s0 : Solver.t term,
    Dispatch.smesolve_sol m [c] [a] [] None = Ok s0
    /\ rhs s0
       = StochasticOpenSystem (Dispatch.liouvillian_c (Some m) [c]) [a]
                              false.
Proof.
  eexists. split; [reflexivity|].
  exact (DispatchFacts.smesolve_generator m [c] [a] [] None _
           (fun h cs => eq_refl) (fun x y Hx => Hx) eq_refl).
Defined.

End MoreInstances.

(** ** The measurement record on the concrete instance and on doubles *)

Module RecordInstances.
Import Qobj Options Solver Toy.



End RecordInstances.
